(** * GenreJinn reader: marks, notes and their persistence

    A shallow embedding of the annotation logic of the React reader
    component ([App]) and of the Express file server ([server.js]).

    - The component state ([marks], [notes], [currentSelection], ...) is
      threaded explicitly: every event handler maps the state of the render
      in which it was created to the next state, together with the HTTP
      requests it fires and what the user observes.
    - Positions returned by [rendition.book.locations.percentageFromCfi]
      are JavaScript numbers of the form [loc / total]; they are modelled as
      exact rationals ([Q]), [null] as [None].
    - DOM styling (wrapping a range in a [span]) and console logging do not
      influence the collections and are left out. *)

From Stdlib Require Import ZArith QArith Lqa Lia.
From Stdlib Require Import Sorting.Sorted Sorting.Permutation.
From Stdlib Require Import DecimalString DecimalPos DecimalZ.
From stdpp Require Import base option list strings gmap.

Local Open Scope string_scope.
Local Open Scope list_scope.

(** ** Data model *)

(** A mark, as built by [addMark]. *)
Module Mark.
Record t : Type := mk {
  id : string;
  cfiRange : string;
  text : string;
  name : string;
  markText : string;
  timestamp : Z;
  createdAt : string
}.

(** [{ ...mark, name: newName }] *)
Definition with_name (newName : string) (m : t) : t :=
  mk (id m) (cfiRange m) (text m) newName (markText m) (timestamp m) (createdAt m).

(** [{ ...mark, markText: newMarkText }] *)
Definition with_markText (newMarkText : string) (m : t) : t :=
  mk (id m) (cfiRange m) (text m) (name m) newMarkText (timestamp m) (createdAt m).
End Mark.

(** A note, as built by [addHighlight] and [applyFormatting]; [markId] is
    [null] ([None]) or the id of a mark. *)
Module Note.
Record t : Type := mk {
  id : string;
  text : string;
  cfiRange : string;
  color : string;
  type : string;
  markId : option string;
  noteText : string;
  timestamp : Z;
  createdAt : string
}.

(** [{ ...note, markId: newMarkId }] *)
Definition with_markId (newMarkId : option string) (n : t) : t :=
  mk (id n) (text n) (cfiRange n) (color n) (type n) newMarkId
     (noteText n) (timestamp n) (createdAt n).

(** [{ ...note, noteText: newNoteText }] *)
Definition with_noteText (newNoteText : string) (n : t) : t :=
  mk (id n) (text n) (cfiRange n) (color n) (type n) (markId n)
     newNoteText (timestamp n) (createdAt n).
End Note.

(** The part of [rendition] the annotation logic reads:
    [rendition.book.locations.total] and
    [rendition.book.locations.percentageFromCfi]. *)
Record Rendition : Type := {
  total : Z;
  percentageFromCfi : string -> option Q
}.

(** [closestDistance] starts at [Infinity]. *)
Inductive Distance : Type :=
| Infinity
| Finite (d : Q).

(** [distance < closestDistance] *)
Definition closer (distance : Q) (closestDistance : Distance) : bool :=
  match closestDistance with
  | Infinity => true
  | Finite c => negb (Qle_bool c distance)
  end.

(** ** Hierarchy resolver: [findParentMark] *)

(** One iteration of [for (const mark of marks)]; the accumulator is the
    pair [(parentMark, closestDistance)]. *)
Definition findParentMark_step (r : Rendition) (notePosition : Q)
    (acc : option Mark.t * Distance) (mark : Mark.t) : option Mark.t * Distance :=
  match percentageFromCfi r (Mark.cfiRange mark) with
  | Some markPosition =>
      if Qle_bool markPosition notePosition then
        let distance := (notePosition - markPosition)%Q in
        if closer distance (snd acc) then (Some mark, Finite distance) else acc
      else acc
  | None => acc
  end.

Definition findParentMark (rendition : option Rendition) (marks : list Mark.t)
    (noteCfiRange : string) : option Mark.t :=
  match rendition with
  | None => None
  | Some r =>
      if (total r =? 0)%Z then None
      else
        match percentageFromCfi r noteCfiRange with
        | None => None
        | Some notePosition =>
            fst (fold_left (findParentMark_step r notePosition) marks (None, Infinity))
        end
  end.

(** ** Component state and what a handler produces *)

(** [currentSelection], as set by the [selected] listener. *)
Module Selection.
Record t : Type := mk {
  cfiRange : string;
  text : string
}.
End Selection.

(** The [useState] cells the annotation handlers read or write. *)
Record App : Type := mkApp {
  rendition : option Rendition;
  currentColor : string;
  currentSelection : option Selection.t;
  marks : list Mark.t;
  notes : list Note.t;
  expandedMarks : gset string
}.

(** The readings of the clock taken by one handler run: the two calls of
    [Date.now()] (one for the id, one for [timestamp]) and
    [new Date().toISOString()]. *)
Record Clock : Type := {
  id_now : Z;
  timestamp_now : Z;
  iso_now : string
}.

(** The [fetch] calls of the component that write to the server. *)
Inductive Request : Type :=
| SaveMark (markData : Mark.t)          (* POST /api/save-mark *)
| UpdateMarks (updatedMarks : list Mark.t) (* POST /api/update-marks *)
| SaveNote (noteData : Note.t)          (* POST /api/save-note *)
| UpdateNotes (updatedNotes : list Note.t). (* POST /api/update-notes *)

(** What the user can tell apart after a handler has run. *)
Inductive Outcome : Type :=
| Done                 (* the handler went through *)
| Ignored              (* guard failed, the handler only logged *)
| Alert (msg : string) (* [alert(msg); return] *)
| NotFound.            (* ['Note not found'], early return *)

Record Result : Type := mkResult {
  state : App;
  sent : list Request;
  outcome : Outcome
}.

Definition set_marks (ms : list Mark.t) (s : App) : App :=
  mkApp (rendition s) (currentColor s) (currentSelection s) ms (notes s) (expandedMarks s).

Definition set_notes (ns : list Note.t) (s : App) : App :=
  mkApp (rendition s) (currentColor s) (currentSelection s) (marks s) ns (expandedMarks s).

Definition set_currentSelection (sel : option Selection.t) (s : App) : App :=
  mkApp (rendition s) (currentColor s) sel (marks s) (notes s) (expandedMarks s).

Definition set_expandedMarks (e : gset string) (s : App) : App :=
  mkApp (rendition s) (currentColor s) (currentSelection s) (marks s) (notes s) e.

(** Decimal rendering of a number inside a template literal. *)
Definition decimal (z : Z) : string := NilZero.string_of_int (Z.to_int z).

(** ** Store operations *)

Definition addMark (c : Clock) (s : App) : Result :=
  match currentSelection s, rendition s with
  | Some sel, Some _ =>
      let episodeNumber := (Z.of_nat (length (marks s)) + 1)%Z in
      let markData :=
        Mark.mk ("mark-" ++ decimal (id_now c)) (Selection.cfiRange sel)
                (Selection.text sel) ("Episode " ++ decimal episodeNumber) ""
                (timestamp_now c) (iso_now c) in
      mkResult (set_currentSelection None (set_marks (marks s ++ [markData]) s))
               [SaveMark markData] Done
  | _, _ => mkResult s [] Ignored
  end.

Definition saveMarkName (markId newName : string) (s : App) : Result :=
  let updatedMarks :=
    fmap (fun mark => if decide (Mark.id mark = markId)
                     then Mark.with_name newName mark else mark) (marks s) in
  mkResult (set_marks updatedMarks s) [UpdateMarks updatedMarks] Done.

Definition saveNoteText (noteId newNoteText : string) (s : App) : Result :=
  let updatedNotes :=
    fmap (fun note => if decide (Note.id note = noteId)
                     then Note.with_noteText newNoteText note else note) (notes s) in
  mkResult (set_notes updatedNotes s) [UpdateNotes updatedNotes] Done.

Definition saveMarkText (markId newMarkText : string) (s : App) : Result :=
  let updatedMarks :=
    fmap (fun mark => if decide (Mark.id mark = markId)
                     then Mark.with_markText newMarkText mark else mark) (marks s) in
  mkResult (set_marks updatedMarks s) [UpdateMarks updatedMarks] Done.

Definition deleteNote (noteId : string) (s : App) : Result :=
  match list_find (fun note => Note.id note = noteId) (notes s) with
  | None => mkResult s [] NotFound
  | Some _ =>
      let updatedNotes := filter (fun note => Note.id note <> noteId) (notes s) in
      mkResult (set_notes updatedNotes s) [UpdateNotes updatedNotes] Done
  end.

(** The handler runs in the closure of one render: [findParentMark] and the
    [marks] it scans are those of the state the handler was created in, and
    the [map] over [notes] runs before [setMarks]. *)
Definition deleteMarkWithReassignment (markId : string) (s : App) : Result :=
  let updatedNotes :=
    fmap (fun note =>
           if decide (Note.markId note = Some markId) then
             let newParentMark := findParentMark (rendition s) (marks s) (Note.cfiRange note) in
             Note.with_markId (match newParentMark with
                               | Some m => Some (Mark.id m)
                               | None => None
                               end) note
           else note) (notes s) in
  let updatedMarks := filter (fun mark => Mark.id mark <> markId) (marks s) in
  mkResult (set_notes updatedNotes (set_marks updatedMarks s))
           [UpdateMarks updatedMarks; UpdateNotes updatedNotes] Done.

(** The body shared by [addHighlight] and [applyFormatting]: they differ in
    the text of the alert and in the [type] of the note. *)
Definition createNote (alertText noteType : string) (c : Clock) (s : App) : Result :=
  match currentSelection s, rendition s with
  | Some sel, Some _ =>
      match findParentMark (rendition s) (marks s) (Selection.cfiRange sel) with
      | None => mkResult s [] (Alert alertText)
      | Some parentMark =>
          let noteId := ("note-" ++ decimal (id_now c))%string in
          let noteData :=
            Note.mk noteId (Selection.text sel) (Selection.cfiRange sel)
                    (currentColor s) noteType (Some (Mark.id parentMark)) ""
                    (timestamp_now c) (iso_now c) in
          mkResult
            (set_currentSelection None
               (set_expandedMarks ({[ Mark.id parentMark ]} ∪ expandedMarks s)
                  (set_notes (notes s ++ [noteData]) s)))
            [SaveNote noteData] Done
      end
  | _, _ => mkResult s [] Ignored
  end.

Definition addHighlight : Clock -> App -> Result :=
  createNote
    "Please create a mark (bookmark) before adding highlights. Marks organize your notes."
    "highlight".

Definition applyFormatting (formatType : string) : Clock -> App -> Result :=
  createNote
    "Please create a mark (bookmark) before adding underlines. Marks organize your notes."
    formatType.

Definition undoLastHighlight (s : App) : Result :=
  match notes s with
  | [] => mkResult s [] Ignored
  | _ :: _ =>
      (* notes.slice(0, -1) *)
      let updatedNotes := take (length (notes s) - 1) (notes s) in
      mkResult (set_notes updatedNotes s) [UpdateNotes updatedNotes] Done
  end.

(** ** Ordering of the marks panel *)

(** [percentageFromCfi(cfi) || 0]: [null] (and [0]) give [0]. *)
Definition percentage_or_0 (r : Rendition) (cfi : string) : Q :=
  match percentageFromCfi r cfi with
  | Some p => p
  | None => 0%Q
  end.

(** The comparator handed to [marks.sort]. *)
Definition compareMarks (rendition : option Rendition) (a b : Mark.t) : Q :=
  match rendition with
  | Some r =>
      if (0 <? total r)%Z then
        let percentageA := percentage_or_0 r (Mark.cfiRange a) in
        let percentageB := percentage_or_0 r (Mark.cfiRange b) in
        (percentageA - percentageB)%Q
      else inject_Z (Mark.timestamp a - Mark.timestamp b)
  | None => inject_Z (Mark.timestamp a - Mark.timestamp b)
  end.

(** [Array.prototype.sort(compare)] is a stable sort; an element goes in
    front of the first element it does not compare greater than. *)
Fixpoint sort_insert {A : Type} (compare : A -> A -> Q) (x : A) (l : list A) : list A :=
  match l with
  | [] => [x]
  | y :: l' =>
      if Qle_bool (compare x y) 0 then x :: y :: l'
      else y :: sort_insert compare x l'
  end.

Definition Array_sort {A : Type} (compare : A -> A -> Q) (l : list A) : list A :=
  foldr (sort_insert compare) [] l.

(** The list the marks panel maps over: [marks.sort((a, b) => ...)]. *)
Definition sortedMarks (s : App) : list Mark.t :=
  Array_sort (compareMarks (rendition s)) (marks s).

(** [marks.sort] sorts the array of the state in place: after a render the
    stored order of the marks is the sorted one. *)
Definition render (s : App) : App := set_marks (sortedMarks s) s.

(** ** The file server *)

(** Values of [req.body], of the files' contents once parsed, and of the
    [data] field of a response. Numbers are the integer timestamps. *)
#[local] Unset Elimination Schemes.
Inductive json : Type :=
| JNull
| JBool (b : bool)
| JNumber (n : Z)
| JString (s : string)
| JArray (items : list json)
| JObject (fields : list (string * json)).
#[local] Set Elimination Schemes.

(** Property access [o.key]; [None] is [undefined]. *)
Fixpoint get_field (key : string) (fields : list (string * json)) : option json :=
  match fields with
  | [] => None
  | (k, v) :: rest => if decide (k = key) then Some v else get_field key rest
  end.

Definition prop (key : string) (o : json) : option json :=
  match o with
  | JObject fields => get_field key fields
  | _ => None
  end.

(** What [JSON.stringify] makes of a mark and of a note on the wire. *)
Definition mark_to_json (m : Mark.t) : json :=
  JObject [("id", JString (Mark.id m));
           ("cfiRange", JString (Mark.cfiRange m));
           ("text", JString (Mark.text m));
           ("name", JString (Mark.name m));
           ("markText", JString (Mark.markText m));
           ("timestamp", JNumber (Mark.timestamp m));
           ("createdAt", JString (Mark.createdAt m))].

Definition note_to_json (n : Note.t) : json :=
  JObject [("id", JString (Note.id n));
           ("text", JString (Note.text n));
           ("cfiRange", JString (Note.cfiRange n));
           ("color", JString (Note.color n));
           ("type", JString (Note.type n));
           ("markId", match Note.markId n with
                      | Some i => JString i
                      | None => JNull
                      end);
           ("noteText", JString (Note.noteText n));
           ("timestamp", JNumber (Note.timestamp n));
           ("createdAt", JString (Note.createdAt n))].

(** The body of each request of the component. *)
Definition body (q : Request) : json :=
  match q with
  | SaveMark markData => mark_to_json markData
  | UpdateMarks updatedMarks => JObject [("marks", JArray (fmap mark_to_json updatedMarks))]
  | SaveNote noteData => note_to_json noteData
  | UpdateNotes updatedNotes => JObject [("notes", JArray (fmap note_to_json updatedNotes))]
  end.

(** A response of the server; the [error] text of a failure is left out. *)
Inductive Response : Type :=
| Success (message : string)   (* { success: true, message } *)
| SuccessData (data : json)    (* { success: true, data } *)
| Status500.                   (* res.status(500).json({ success: false, ... }) *)

Section Server.
(** File contents and the two functions of the runtime that go between
    them and values: [JSON.stringify(v, null, 2)] and [JSON.parse], which
    throws ([None]) on text that is not JSON. *)
Context {text : Type}.
Variable JSON_stringify : json -> text.
Variable JSON_parse : text -> option json.

(** [fs.readFile] followed by [JSON.parse] inside the inner [try]; the
    [catch] leaves the initial [[]]. *)
Definition read_or_empty (filename : string) (data : gmap string text) : json :=
  match data !! filename with
  | Some existingData =>
      match JSON_parse existingData with
      | Some v => v
      | None => JArray []
      end
  | None => JArray []
  end.

(** [POST /api/save-mark] and [POST /api/save-note]: read the file, [push]
    the body, write the file back, then log [body.text.substring(0, 50)].
    [push] on a value that is not an array and [substring] on a [text] that
    is not a string throw into the outer [catch]. *)
Definition save_record (filename message : string) (record : json)
    (data : gmap string text) : gmap string text * Response :=
  match read_or_empty filename data with
  | JArray existing =>
      let data' := <[filename := JSON_stringify (JArray (existing ++ [record]))]> data in
      match prop "text" record with
      | Some (JString _) => (data', Success message)
      | _ => (data', Status500)
      end
  | _ => (data, Status500)
  end.

(** [POST /api/update-marks] and [POST /api/update-notes]: destructure the
    collection out of the body and write it; [JSON.stringify(undefined)] is
    [undefined], which [fs.writeFile] rejects, and [.length] of [null]
    throws after the write. *)
Definition update_collection (filename field message : string) (reqBody : json)
    (data : gmap string text) : gmap string text * Response :=
  match prop field reqBody with
  | None => (data, Status500)
  | Some collection =>
      let data' := <[filename := JSON_stringify collection]> data in
      match collection with
      | JNull => (data', Status500)
      | _ => (data', Success message)
      end
  end.

(** [GET /api/load-marks] and [GET /api/load-notes]. *)
Definition load_collection (filename : string) (data : gmap string text) : Response :=
  SuccessData (read_or_empty filename data).

Definition save_mark := save_record "marks.json" "Mark saved successfully".
Definition save_note := save_record "notes.json" "Note saved successfully".
Definition update_marks := update_collection "marks.json" "marks" "Marks updated successfully".
Definition update_notes := update_collection "notes.json" "notes" "Notes updated successfully".
Definition load_marks := load_collection "marks.json".
Definition load_notes := load_collection "notes.json".

(** The server handling one request of the component. *)
Definition serve (q : Request) (data : gmap string text) : gmap string text * Response :=
  match q with
  | SaveMark _ => save_mark (body q) data
  | UpdateMarks _ => update_marks (body q) data
  | SaveNote _ => save_note (body q) data
  | UpdateNotes _ => update_notes (body q) data
  end.

(** The requests of one handler run, handled in the order they were sent. *)
Definition serve_all (qs : list Request) (data : gmap string text) : gmap string text :=
  fold_left (fun d q => fst (serve q d)) qs data.
End Server.

(** * Vocabulary of the properties *)

(** The position of an anchor as [findParentMark] obtains it: nothing while
    the locations are not ready, the percentage of the CFI otherwise. *)
Definition resolve (rendition : option Rendition) (cfi : string) : option Q :=
  match rendition with
  | Some r => if (total r =? 0)%Z then None else percentageFromCfi r cfi
  | None => None
  end.

(** No mark of [l] lies at or before position [p]. *)
Definition no_preceding (r : Rendition) (p : Q) (l : list Mark.t) : Prop :=
  forall m q, m ∈ l -> percentageFromCfi r (Mark.cfiRange m) = Some q -> ~ (q <= p)%Q.

(** [m], stored at index [i] of [l], lies at position [q <= p]; no mark of
    [l] lies in [(q, p]], and every mark stored before [m] that lies at or
    before [p] lies strictly before [q]. *)
Definition nearest_preceding (r : Rendition) (p : Q) (l : list Mark.t)
    (i : nat) (m : Mark.t) (q : Q) : Prop :=
  l !! i = Some m /\
  percentageFromCfi r (Mark.cfiRange m) = Some q /\
  (q <= p)%Q /\
  forall j m' q',
    l !! j = Some m' ->
    percentageFromCfi r (Mark.cfiRange m') = Some q' ->
    (q' <= p)%Q ->
    (q' <= q)%Q /\ (j < i -> (q' < q)%Q).

(** What the loop of [findParentMark] has established after the marks [l]. *)
Inductive scanned (r : Rendition) (p : Q) (l : list Mark.t) :
    option Mark.t * Distance -> Prop :=
| scanned_none :
    no_preceding r p l -> scanned r p l (None, Infinity)
| scanned_some i m q :
    nearest_preceding r p l i m q -> scanned r p l (Some m, Finite (p - q)%Q).

(** Every note is unassigned or filed under a mark of the collection. *)
Definition no_dangling (s : App) : Prop :=
  forall n i, n ∈ notes s -> Note.markId n = Some i ->
              exists m, m ∈ marks s /\ Mark.id m = i.

(** [l'] is [l] sorted by [key], the elements of equal key in the order
    they have in [l]. *)
Definition stable_sorted_by {A : Type} (key : A -> Q) (l l' : list A) : Prop :=
  Permutation l l' /\
  StronglySorted (fun a b => (key a <= key b)%Q) l' /\
  forall k, List.filter (fun a => Qeq_bool (key a) k) l'
            = List.filter (fun a => Qeq_bool (key a) k) l.

(** The claim on unresolved marks: each comes after every mark the book
    can place. *)
Definition unresolved_after_resolved (r : Rendition) (l : list Mark.t) : Prop :=
  forall i j a b,
    l !! i = Some a -> l !! j = Some b ->
    percentageFromCfi r (Mark.cfiRange a) = None ->
    is_Some (percentageFromCfi r (Mark.cfiRange b)) ->
    j < i.

(** Every request of a handler run carries a whole collection, the one the
    state holds after the run. *)
Definition sends_whole_collections (r : Result) : Prop :=
  forall q, q ∈ sent r ->
            q = UpdateMarks (marks (state r)) \/ q = UpdateNotes (notes (state r)).

Section Stored.
Context {text : Type}.
Variable JSON_stringify : json -> text.
Variable JSON_parse : text -> option json.

(** Once the server has handled the requests of the run, whatever the files
    held before, [marks.json] (or [notes.json]) holds the collection of the
    state, and nothing else. *)
Definition replaces_marks (r : Result) : Prop :=
  forall data : gmap string text,
    serve_all JSON_stringify JSON_parse (sent r) data !! "marks.json"
    = Some (JSON_stringify (JArray (mark_to_json <$> marks (state r)))).

Definition replaces_notes (r : Result) : Prop :=
  forall data : gmap string text,
    serve_all JSON_stringify JSON_parse (sent r) data !! "notes.json"
    = Some (JSON_stringify (JArray (note_to_json <$> notes (state r)))).

(** Once the server has handled the requests of the run, the file holds
    the records it held before, followed by the one record sent. *)
Definition appends_to (filename : string) (r : Result) (record : json) : Prop :=
  forall (data : gmap string text) (existing : list json),
    read_or_empty JSON_parse filename data = JArray existing ->
    serve_all JSON_stringify JSON_parse (sent r) data !! filename
    = Some (JSON_stringify (JArray (existing ++ [record]))).
End Stored.

(** ** A small reading session *)

(** Marks M1 at 0.1 and M2 at 0.5 of a book whose locations are ready, a
    note N at 0.6 filed under M2, and a mark whose CFI the book cannot
    place. *)
Module Example.
Definition book : Rendition :=
  {| total := 1000;
     percentageFromCfi := fun cfi =>
       if (cfi =? "cfi@0.05")%string then Some (5 # 100)
       else if (cfi =? "cfi@0.1")%string then Some (1 # 10)
       else if (cfi =? "cfi@0.5")%string then Some (5 # 10)
       else if (cfi =? "cfi@0.6")%string then Some (6 # 10)
       else None |}.

Definition M1 : Mark.t :=
  Mark.mk "mark-1" "cfi@0.1" "It was a dark night" "Episode 1" "" 1 "2024-05-01T10:00:00.001Z".

Definition M2 : Mark.t :=
  Mark.mk "mark-2" "cfi@0.5" "The next morning" "Episode 2" "" 2 "2024-05-01T10:00:00.002Z".

Definition lost : Mark.t :=
  Mark.mk "mark-4" "cfi@elsewhere" "Torn page" "Episode 3" "" 4 "2024-05-01T10:00:00.004Z".

Definition N : Note.t :=
  Note.mk "note-3" "a storm was coming" "cfi@0.6" "#fbdda7" "highlight"
          (Some "mark-2") "" 3 "2024-05-01T10:00:00.003Z".

Definition clock : Clock :=
  {| id_now := 7; timestamp_now := 7; iso_now := "2024-05-01T10:00:00.007Z" |}.

(** M1, M2 and N, nothing selected. *)
Definition reading : App := mkApp (Some book) "#fbdda7" None [M1; M2] [N] ∅.

(** Only M1, and N filed under it. *)
Definition single : App :=
  mkApp (Some book) "#fbdda7" None [M1] [Note.with_markId (Some "mark-1") N] ∅.

(** [reading] with text selected at 0.6, and at 0.05, before every mark. *)
Definition selecting : App :=
  set_currentSelection (Some (Selection.mk "cfi@0.6" "and the rain fell")) reading.

Definition selecting_early : App :=
  set_currentSelection (Some (Selection.mk "cfi@0.05" "Preface")) reading.

(** M2 and the mark the book cannot place, in that stored order. *)
Definition with_lost : App := mkApp (Some book) "#fbdda7" None [M2; lost] [] ∅.

(** A second note, an underline at 0.6 filed under M2, after N. *)
Definition N2 : Note.t :=
  Note.mk "note-5" "and the rain fell" "cfi@0.6" "#6be28d" "underline"
          (Some "mark-2") "" 5 "2024-05-01T10:00:00.005Z".

Definition annotated : App := mkApp (Some book) "#fbdda7" None [M1; M2] [N; N2] ∅.

(** A runtime whose files hold the value written, as it is. *)
Definition stringify : json -> json := fun v => v.
Definition parse : json -> option json := Some.
End Example.

(** * The rest of the component and of the server *)

(** ** The notes panel *)

(** [!note.markId]: [null] and the empty string are falsy. *)
Definition no_markId (markId : option string) : bool :=
  match markId with
  | None => true
  | Some i => if decide (i = "") then true else false
  end.

(** [markIds.has(note.markId)], [markIds] being the set of the ids of the
    marks. *)
Definition has (markIds : gset string) (markId : option string) : bool :=
  match markId with
  | None => false
  | Some i => bool_decide (i ∈ markIds)
  end.

(** The notes listed under "Unassigned":
    [notes.filter(note => !note.markId || !markIds.has(note.markId))]. *)
Definition orphanedNotes (s : App) : list Note.t :=
  let markIds : gset string := list_to_set (Mark.id <$> marks s) in
  filter (fun note => no_markId (Note.markId note) || negb (has markIds (Note.markId note)) = true)
         (notes s).

(** The notes listed under a mark:
    [notes.filter(note => note.markId === mark.id)]. *)
Definition markNotes (s : App) (mark : Mark.t) : list Note.t :=
  filter (fun note => Note.markId note = Some (Mark.id mark)) (notes s).

(** [toggleMarkExpansion]: the functional update of [expandedMarks]. *)
Definition toggleMarkExpansion (markId : string) (s : App) : App :=
  set_expandedMarks
    (if decide (markId ∈ expandedMarks s)
     then expandedMarks s ∖ {[ markId ]}
     else expandedMarks s ∪ {[ markId ]}) s.

(** ** Colour and font size *)

(** The Akira colour scheme. *)
Module akira.
Definition background : string := "#1f1f39".
Definition foreground : string := "#9aa4ca".
Definition white : string := "#ffffff".
Definition red : string := "#ff6a6e".
Definition green : string := "#6be28d".
Definition blue : string := "#b3e3f2".
Definition yellow : string := "#fbdda7".
End akira.

Definition colors : list string :=
  [akira.foreground; akira.yellow; akira.green; akira.red; akira.blue; akira.white].

(** [Array.prototype.indexOf]: the first index holding [x], [-1] when there
    is none. *)
Fixpoint indexOf_from (l : list string) (x : string) (i : Z) : Z :=
  match l with
  | [] => -1
  | y :: l' => if decide (y = x) then i else indexOf_from l' x (i + 1)
  end.

Definition indexOf (l : list string) (x : string) : Z := indexOf_from l x 0.

(** [l[i]] for a number [i]; [None] is [undefined]. *)
Definition at_index {A : Type} (l : list A) (i : Z) : option A :=
  if (i <? 0)%Z then None else l !! Z.to_nat i.

Definition set_currentColor (color : string) (s : App) : App :=
  mkApp (rendition s) color (currentSelection s) (marks s) (notes s) (expandedMarks s).

(** [cycleColor]; the remainder is that of JavaScript, of the sign of the
    dividend. The index it computes is always one of the palette
    ([cycleColor_in_palette] below), so [colors[nextIndex]] is a colour. *)
Definition cycleColor (s : App) : App :=
  let colorIndex := indexOf colors (currentColor s) in
  let nextIndex := Z.rem (colorIndex + 1) (Z.of_nat (length colors)) in
  match at_index colors nextIndex with
  | Some color => set_currentColor color s
  | None => s
  end.

(** The updates of [fontSize] behind the two zoom buttons:
    [prev => Math.max(10, prev - 2)] and [prev => Math.min(50, prev + 2)]. *)
Definition zoomOut (prev : Z) : Z := Z.max 10 (prev - 2).
Definition zoomIn (prev : Z) : Z := Z.min 50 (prev + 2).

(** One press of a zoom button. *)
Inductive Zoom : Type := ZoomIn | ZoomOut.

Definition zoom (fontSize : Z) (z : Zoom) : Z :=
  match z with
  | ZoomIn => zoomIn fontSize
  | ZoomOut => zoomOut fontSize
  end.

(** ** Search results *)

Module SearchResult.
Record t : Type := mk {
  cfi : string;
  excerpt : string
}.
End SearchResult.

#[global] Instance SearchResult_eq_dec : EqDecision SearchResult.t.
Proof. solve_decision. Defined.

(** The cells the search handlers read or write. *)
Record Search : Type := mkSearch {
  searchResults : list SearchResult.t;
  currentResultIndex : Z;
  prevResults : list SearchResult.t;
  location : option string
}.

(** [goToNextResult] and [goToPreviousResult]. [setCurrentResultIndex] has
    run when [searchResults[index].cfi] is read: were the index outside the
    results, the handler would throw there, the location left as it is. *)
Definition goTo (index : Z) (st : Search) : Search :=
  match at_index (searchResults st) index with
  | Some result =>
      mkSearch (searchResults st) index (prevResults st) (Some (SearchResult.cfi result))
  | None => mkSearch (searchResults st) index (prevResults st) (location st)
  end.

Definition goToNextResult (st : Search) : Search :=
  match searchResults st with
  | [] => st
  | _ :: _ =>
      let nextIndex :=
        Z.rem (currentResultIndex st + 1) (Z.of_nat (length (searchResults st))) in
      goTo nextIndex st
  end.

Definition goToPreviousResult (st : Search) : Search :=
  match searchResults st with
  | [] => st
  | _ :: _ =>
      let prevIndex :=
        Z.rem (currentResultIndex st - 1 + Z.of_nat (length (searchResults st)))
              (Z.of_nat (length (searchResults st))) in
      goTo prevIndex st
  end.



(** ** Reading progress on the server *)

Section Progress.
Context {text : Type}.
Variable JSON_stringify : json -> text.
Variable JSON_parse : text -> option json.

(** [POST /api/save-progress]. [now] and [iso] are the server's
    [Date.now()] and [new Date().toISOString()]. A property that is
    [undefined] is left out by [JSON.stringify]; destructuring [null]
    throws. *)
Definition save_progress (now : Z) (iso : string) (reqBody : json)
    (data : gmap string text) : gmap string text * Response :=
  match reqBody with
  | JNull => (data, Status500)
  | _ =>
      let location := prop "location" reqBody in
      let timestamp :=
        match prop "timestamp" reqBody with
        | Some t => t
        | None => JNumber now
        end in
      let progressData :=
        JObject (match location with
                 | Some l => [("location", l)]
                 | None => []
                 end ++ [("timestamp", timestamp); ("savedAt", JString iso)]) in
      (<["reading-progress.json" := JSON_stringify progressData]> data,
       Success "Progress saved successfully")
  end.

(** [GET /api/load-progress]: [data: null] when the file is not there or
    does not parse. *)
Definition load_progress (data : gmap string text) : Response :=
  match data !! "reading-progress.json" with
  | Some content =>
      match JSON_parse content with
      | Some progressData => SuccessData progressData
      | None => SuccessData JNull
      end
  | None => SuccessData JNull
  end.

(** What the memory holds is what the server would hand out: the notes as
    they are, the marks up to their order (the panel sorts the array of
    marks in place and sends nothing). *)
Definition synced (data : gmap string text) (s : App) : Prop :=
  (exists stored,
     load_marks JSON_parse data = SuccessData (JArray (mark_to_json <$> stored)) /\
     stored ≡ₚ marks s) /\
  load_notes JSON_parse data = SuccessData (JArray (note_to_json <$> notes s)).
End Progress.

(** The body of [saveProgress(newLocation)]. *)
Definition progress_body (newLocation : string) : json :=
  JObject [("location", JString newLocation)].

(** All the handlers that write to the marks or the notes, as events. *)
Inductive Event : Type :=
| AddMark (c : Clock)
| SaveMarkName (markId newName : string)
| SaveMarkText (markId newMarkText : string)
| SaveNoteText (noteId newNoteText : string)
| DeleteNote (noteId : string)
| DeleteMarkWithReassignment (markId : string)
| AddHighlight (c : Clock)
| ApplyFormatting (formatType : string) (c : Clock)
| UndoLastHighlight.

Definition handle (e : Event) (s : App) : Result :=
  match e with
  | AddMark c => addMark c s
  | SaveMarkName markId newName => saveMarkName markId newName s
  | SaveMarkText markId newMarkText => saveMarkText markId newMarkText s
  | SaveNoteText noteId newNoteText => saveNoteText noteId newNoteText s
  | DeleteNote noteId => deleteNote noteId s
  | DeleteMarkWithReassignment markId => deleteMarkWithReassignment markId s
  | AddHighlight c => addHighlight c s
  | ApplyFormatting formatType c => applyFormatting formatType c s
  | UndoLastHighlight => undoLastHighlight s
  end.

(** The files of the server when they hold the session of M1, M2 and N,
    for a runtime whose files hold the value written. *)
Definition session_files : gmap string json :=
  <["marks.json" := JArray (mark_to_json <$> [Example.M1; Example.M2])]>
    (<["notes.json" := JArray (note_to_json <$> [Example.N])]> ∅).

(** * Properties *)

(** ** The nearest preceding mark *)

Lemma Qle_bool_false (x y : Q) : Qle_bool x y = false -> ~ (x <= y)%Q.
Proof.
  intros H Hle. apply Qle_bool_iff in Hle. congruence.
Qed.

Lemma lookup_snoc_inv {A : Type} (l : list A) (x y : A) (j : nat) :
  (l ++ [x]) !! j = Some y ->
  (j < length l /\ l !! j = Some y) \/ (j = length l /\ y = x).
Proof.
  intros H. destruct (decide (j < length l)) as [Hlt | Hge].
  - left. split; [exact Hlt |]. now rewrite lookup_app_l in H.
  - right. rewrite lookup_app_r in H by lia.
    destruct (j - length l) as [| k] eqn:E; simpl in H.
    + split; [lia | congruence].
    + discriminate.
Qed.

Lemma scanned_step (r : Rendition) (p : Q) (l : list Mark.t)
    (acc : option Mark.t * Distance) (mark : Mark.t) :
  scanned r p l acc ->
  scanned r p (l ++ [mark]) (findParentMark_step r p acc mark).
Proof.
  intros Hacc. unfold findParentMark_step.
  destruct (percentageFromCfi r (Mark.cfiRange mark)) as [mq |] eqn:Hpos.
  2: {
    (* the mark has no position: the accumulator stays *)
    destruct Hacc as [Hnone | i m q (Hi & Hq & Hle & Hbest)].
    - apply scanned_none. intros m' q' Hin Hq'.
      apply elem_of_app in Hin as [Hin | Hin]; [now apply (Hnone m') |].
      apply list_elem_of_singleton in Hin. subst m'. congruence.
    - apply scanned_some with (i := i). repeat split; try assumption.
      + rewrite lookup_app_l; [assumption | now apply lookup_lt_Some in Hi].
      + destruct (lookup_snoc_inv _ _ _ _ H) as [[_ Hj] | [_ ->]];
          [now apply (Hbest j m' q') | congruence].
      + destruct (lookup_snoc_inv _ _ _ _ H) as [[_ Hj] | [_ ->]];
          [now apply (Hbest j m' q') | congruence].
  }
  destruct (Qle_bool mq p) eqn:Hqual.
  2: {
    (* the mark lies after the note: the accumulator stays *)
    apply Qle_bool_false in Hqual.
    destruct Hacc as [Hnone | i m q (Hi & Hq & Hle & Hbest)].
    - apply scanned_none. intros m' q' Hin Hq'.
      apply elem_of_app in Hin as [Hin | Hin]; [now apply (Hnone m') |].
      apply list_elem_of_singleton in Hin. subst m'.
      rewrite Hpos in Hq'. injection Hq' as <-. exact Hqual.
    - apply scanned_some with (i := i). repeat split; try assumption.
      + rewrite lookup_app_l; [assumption | now apply lookup_lt_Some in Hi].
      + destruct (lookup_snoc_inv _ _ _ _ H) as [[_ Hj] | [_ ->]];
          [now apply (Hbest j m' q') |].
        rewrite Hpos in H0. injection H0 as <-. contradiction.
      + destruct (lookup_snoc_inv _ _ _ _ H) as [[_ Hj] | [_ ->]];
          [now apply (Hbest j m' q') |].
        rewrite Hpos in H0. injection H0 as <-. contradiction.
  }
  apply Qle_bool_iff in Hqual.
  destruct Hacc as [Hnone | i m q (Hi & Hq & Hle & Hbest)]; simpl.
  - (* first mark at or before the note *)
    apply scanned_some with (i := length l). repeat split; try assumption.
    + now rewrite lookup_app_r, Nat.sub_diag by lia.
    + destruct (lookup_snoc_inv _ _ _ _ H) as [[_ Hj] | [_ ->]].
      * exfalso. apply (Hnone m' q'); [| assumption | assumption].
        apply list_elem_of_lookup. now exists j.
      * rewrite Hpos in H0. injection H0 as <-. apply Qle_refl.
    + intros Hlt. exfalso. apply (Hnone m' q'); [| assumption | assumption].
      destruct (lookup_snoc_inv _ _ _ _ H) as [[_ Hj] | [-> _]]; [| lia].
      apply list_elem_of_lookup. now exists j.
  - destruct (Qle_bool (p - q) (p - mq)) eqn:Hcmp; simpl.
    + (* not strictly closer: the earlier choice stays *)
      apply Qle_bool_iff in Hcmp.
      apply scanned_some with (i := i). repeat split; try assumption.
      * rewrite lookup_app_l; [assumption | now apply lookup_lt_Some in Hi].
      * destruct (lookup_snoc_inv _ _ _ _ H) as [[_ Hj] | [_ ->]];
          [now apply (Hbest j m' q') |].
        rewrite Hpos in H0. injection H0 as <-. lra.
      * intros Hlt.
        destruct (lookup_snoc_inv _ _ _ _ H) as [[_ Hj] | [-> _]];
          [now apply (Hbest j m' q') |].
        apply lookup_lt_Some in Hi. lia.
    + (* strictly closer: the mark becomes the choice *)
      apply Qle_bool_false in Hcmp.
      apply scanned_some with (i := length l). repeat split; try assumption.
      * now rewrite lookup_app_r, Nat.sub_diag by lia.
      * destruct (lookup_snoc_inv _ _ _ _ H) as [[_ Hj] | [_ ->]].
        -- destruct (Hbest j m' q' Hj H0 H1) as [Hq' _]. lra.
        -- rewrite Hpos in H0. injection H0 as <-. apply Qle_refl.
      * intros Hlt.
        destruct (lookup_snoc_inv _ _ _ _ H) as [[_ Hj] | [-> _]]; [| lia].
        destruct (Hbest j m' q' Hj H0 H1) as [Hq' _]. lra.
Qed.

Lemma scanned_fold (r : Rendition) (p : Q) (l pre : list Mark.t)
    (acc : option Mark.t * Distance) :
  scanned r p pre acc ->
  scanned r p (pre ++ l) (fold_left (findParentMark_step r p) l acc).
Proof.
  revert pre acc. induction l as [| mark l IH]; intros pre acc Hacc; simpl.
  - now rewrite app_nil_r.
  - replace (pre ++ mark :: l) with ((pre ++ [mark]) ++ l)
      by now rewrite <- app_assoc.
    apply IH. now apply scanned_step.
Qed.

(** The whole loop, from [parentMark = null] and [closestDistance = Infinity]. *)
Lemma scanned_all (r : Rendition) (p : Q) (l : list Mark.t) :
  scanned r p l (fold_left (findParentMark_step r p) l (None, Infinity)).
Proof.
  apply (scanned_fold r p l []). apply scanned_none.
  intros m q Hin. now apply not_elem_of_nil in Hin.
Qed.

(** [findParentMark] returns the nearest preceding mark, first stored among
    equals, and [null] exactly when the position of the note is not known
    or no mark lies at or before it. *)
Lemma findParentMark_spec (rendition : option Rendition) (l : list Mark.t)
    (cfi : string) :
  match findParentMark rendition l cfi with
  | Some m =>
      exists r p i q,
        rendition = Some r /\ resolve rendition cfi = Some p /\
        nearest_preceding r p l i m q
  | None =>
      resolve rendition cfi = None \/
      exists r p,
        rendition = Some r /\ resolve rendition cfi = Some p /\ no_preceding r p l
  end.
Proof.
  unfold findParentMark, resolve.
  destruct rendition as [r |]; [| now left].
  destruct (total r =? 0)%Z; [now left |].
  destruct (percentageFromCfi r cfi) as [p |]; [| now left].
  pose proof (scanned_all r p l) as Hscan.
  destruct Hscan as [Hnone | i m q Hbest]; simpl.
  - right. now exists r, p.
  - now exists r, p, i, q.
Qed.

Lemma findParentMark_unresolved (rendition : option Rendition) (l : list Mark.t)
    (cfi : string) :
  resolve rendition cfi = None -> findParentMark rendition l cfi = None.
Proof.
  unfold findParentMark, resolve.
  destruct rendition as [r |]; [| reflexivity].
  destruct (total r =? 0)%Z; [reflexivity |].
  now intros ->.
Qed.

Lemma findParentMark_no_preceding (r : Rendition) (l : list Mark.t)
    (cfi : string) (p : Q) :
  resolve (Some r) cfi = Some p -> no_preceding r p l ->
  findParentMark (Some r) l cfi = None.
Proof.
  intros Hp Hnone.
  pose proof (findParentMark_spec (Some r) l cfi) as Hspec.
  destruct (findParentMark (Some r) l cfi) as [m |]; [| reflexivity].
  destruct Hspec as (r' & p' & i & q & Hr & Hp' & Hi & Hq & Hle & _).
  injection Hr as <-. rewrite Hp in Hp'. injection Hp' as <-.
  exfalso. apply (Hnone m q); [| assumption | assumption].
  apply list_elem_of_lookup. now exists i.
Qed.

Lemma findParentMark_preceding (r : Rendition) (l : list Mark.t)
    (cfi : string) (p : Q) (m0 : Mark.t) (q0 : Q) :
  resolve (Some r) cfi = Some p ->
  m0 ∈ l -> percentageFromCfi r (Mark.cfiRange m0) = Some q0 -> (q0 <= p)%Q ->
  exists i m q,
    findParentMark (Some r) l cfi = Some m /\ nearest_preceding r p l i m q.
Proof.
  intros Hp Hin Hq0 Hle0.
  pose proof (findParentMark_spec (Some r) l cfi) as Hspec.
  destruct (findParentMark (Some r) l cfi) as [m |].
  - destruct Hspec as (r' & p' & i & q & Hr & Hp' & Hbest).
    injection Hr as <-. rewrite Hp in Hp'. injection Hp' as <-.
    now exists i, m, q.
  - exfalso. destruct Hspec as [Hnone | (r' & p' & Hr & Hp' & Hnone)].
    + congruence.
    + injection Hr as <-. rewrite Hp in Hp'. injection Hp' as <-.
      now apply (Hnone m0 q0).
Qed.

(** The parent returned is one of the marks scanned. *)
Lemma findParentMark_elem (rendition : option Rendition) (l : list Mark.t)
    (cfi : string) (m : Mark.t) :
  findParentMark rendition l cfi = Some m -> m ∈ l.
Proof.
  intros H. pose proof (findParentMark_spec rendition l cfi) as Hspec.
  rewrite H in Hspec. destruct Hspec as (r & p & i & q & _ & _ & Hi & _).
  apply list_elem_of_lookup. now exists i.
Qed.

(** ** Creating a note *)

Lemma createNote_rejected (alertText noteType : string) (c : Clock) (s : App)
    (sel : Selection.t) (r : Rendition) :
  currentSelection s = Some sel -> rendition s = Some r ->
  findParentMark (rendition s) (marks s) (Selection.cfiRange sel) = None ->
  createNote alertText noteType c s = mkResult s [] (Alert alertText).
Proof.
  intros Hsel Hr Hnone. unfold createNote. now rewrite Hsel, Hr, <- Hr, Hnone.
Qed.

Lemma createNote_created (alertText noteType : string) (c : Clock) (s : App)
    (sel : Selection.t) (r : Rendition) (parentMark : Mark.t) :
  currentSelection s = Some sel -> rendition s = Some r ->
  findParentMark (rendition s) (marks s) (Selection.cfiRange sel) = Some parentMark ->
  let noteData :=
    Note.mk ("note-" ++ decimal (id_now c)) (Selection.text sel)
            (Selection.cfiRange sel) (currentColor s) noteType
            (Some (Mark.id parentMark)) "" (timestamp_now c) (iso_now c) in
  createNote alertText noteType c s =
    mkResult
      (mkApp (rendition s) (currentColor s) None (marks s)
             (notes s ++ [noteData]) ({[ Mark.id parentMark ]} ∪ expandedMarks s))
      [SaveNote noteData] Done.
Proof.
  intros Hsel Hr Hsome. unfold createNote. now rewrite Hsel, Hr, <- Hr, Hsome.
Qed.

(** ** Deleting a mark *)

(** Whatever the marks, the handler files a note of the deleted mark under
    the result of [findParentMark] on the marks of the render it runs in,
    the deleted mark among them: while that mark is still the nearest one
    preceding the note, the note keeps its id and no mark carries it. *)
Lemma deleteMark_stale_parent (markId : string) (s : App) (n : Note.t) (m : Mark.t) :
  n ∈ notes s -> Note.markId n = Some markId ->
  findParentMark (rendition s) (marks s) (Note.cfiRange n) = Some m ->
  Mark.id m = markId ->
  Note.with_markId (Some markId) n ∈ notes (state (deleteMarkWithReassignment markId s)) /\
  forall m', m' ∈ marks (state (deleteMarkWithReassignment markId s)) -> Mark.id m' <> markId.
Proof.
  intros Hin Hid Hparent Hm. simpl. split.
  - apply list_elem_of_fmap. exists n. split; [| exact Hin].
    destruct (decide (Note.markId n = Some markId)) as [_ | Hne]; [| contradiction].
    now rewrite Hparent, Hm.
  - intros m' Hin'. now apply list_elem_of_filter in Hin' as [Hne _].
Qed.

(** C1 (defect of the code). The claim: deleting M2 moves N, at 0.6 and
    filed under M2, to M1 at 0.1, and deleting the only mark leaves its note
    unassigned. The handler looks the new parent up among the marks that
    still hold the deleted one: N stays filed under M2 although M1 is what
    [findParentMark] returns for the marks that remain, and the note of the
    only mark stays filed under it although no mark remains. *)
Theorem deleteMark_keeps_deleted_parent :
  Note.markId <$> notes (state (deleteMarkWithReassignment "mark-2" Example.reading))
    = [Some "mark-2"] /\
  marks (state (deleteMarkWithReassignment "mark-2" Example.reading)) = [Example.M1] /\
  findParentMark (Some Example.book) [Example.M1] (Note.cfiRange Example.N)
    = Some Example.M1 /\
  Note.markId <$> notes (state (deleteMarkWithReassignment "mark-1" Example.single))
    = [Some "mark-1"] /\
  marks (state (deleteMarkWithReassignment "mark-1" Example.single)) = [].
Proof.
  repeat split; vm_compute; reflexivity.
Qed.

(** C2 (defect of the code). The claim: after every operation each note is
    unassigned or filed under a mark of the collection. In the session
    above this holds before M2 is deleted and fails right after: N is still
    filed under M2, which is gone. *)
Theorem deleteMark_leaves_dangling_parent :
  no_dangling Example.reading /\
  ~ no_dangling (state (deleteMarkWithReassignment "mark-2" Example.reading)).
Proof.
  split.
  - intros n i Hin Hid. exists Example.M2.
    apply list_elem_of_singleton in Hin. subst n. simpl in Hid.
    injection Hid as <-. split; [| reflexivity].
    apply list_elem_of_lookup. now exists 1%nat.
  - intros Hinv.
    destruct (Hinv Example.N "mark-2") as (m & Hin & Hid).
    + assert (notes (state (deleteMarkWithReassignment "mark-2" Example.reading))
              = [Example.N]) as -> by (vm_compute; reflexivity).
      now apply list_elem_of_singleton.
    + reflexivity.
    + assert (marks (state (deleteMarkWithReassignment "mark-2" Example.reading))
              = [Example.M1]) as E by (vm_compute; reflexivity).
      rewrite E in Hin. apply list_elem_of_singleton in Hin. subst m.
      discriminate Hid.
Qed.

(** Every other handler keeps the notes free of dangling parents. *)
Lemma addMark_no_dangling (c : Clock) (s : App) :
  no_dangling s -> no_dangling (state (addMark c s)).
Proof.
  intros Hinv. unfold addMark.
  destruct (currentSelection s) as [sel |]; [| exact Hinv].
  destruct (rendition s) as [r |]; [| exact Hinv].
  intros n i Hin Hid. simpl in *.
  destruct (Hinv n i Hin Hid) as (m & Hm & Hmi).
  exists m. split; [| exact Hmi]. apply elem_of_app. now left.
Qed.

Lemma rename_no_dangling (f : Mark.t -> Mark.t) (s : App) :
  (forall m, Mark.id (f m) = Mark.id m) ->
  no_dangling s -> no_dangling (set_marks (f <$> marks s) s).
Proof.
  intros Hf Hinv n i Hin Hid. simpl in *.
  destruct (Hinv n i Hin Hid) as (m & Hm & Hmi).
  exists (f m). split; [| now rewrite Hf].
  apply list_elem_of_fmap. now exists m.
Qed.

Lemma saveMarkName_no_dangling (markId newName : string) (s : App) :
  no_dangling s -> no_dangling (state (saveMarkName markId newName s)).
Proof.
  apply (rename_no_dangling
           (fun mark => if decide (Mark.id mark = markId)
                        then Mark.with_name newName mark else mark)).
  intros m. now destruct (decide (Mark.id m = markId)).
Qed.

Lemma saveMarkText_no_dangling (markId newMarkText : string) (s : App) :
  no_dangling s -> no_dangling (state (saveMarkText markId newMarkText s)).
Proof.
  apply (rename_no_dangling
           (fun mark => if decide (Mark.id mark = markId)
                        then Mark.with_markText newMarkText mark else mark)).
  intros m. now destruct (decide (Mark.id m = markId)).
Qed.

Lemma saveNoteText_no_dangling (noteId newNoteText : string) (s : App) :
  no_dangling s -> no_dangling (state (saveNoteText noteId newNoteText s)).
Proof.
  intros Hinv n i Hin Hid. simpl in *.
  apply list_elem_of_fmap in Hin as (n0 & -> & Hin0).
  apply (Hinv n0 i Hin0).
  now destruct (decide (Note.id n0 = noteId)).
Qed.

Lemma deleteNote_no_dangling (noteId : string) (s : App) :
  no_dangling s -> no_dangling (state (deleteNote noteId s)).
Proof.
  intros Hinv. unfold deleteNote.
  destruct (list_find _ (notes s)); [| exact Hinv].
  intros n i Hin Hid. simpl in *.
  apply list_elem_of_filter in Hin as [_ Hin]. now apply (Hinv n i).
Qed.

Lemma createNote_no_dangling (alertText noteType : string) (c : Clock) (s : App) :
  no_dangling s -> no_dangling (state (createNote alertText noteType c s)).
Proof.
  intros Hinv. unfold createNote.
  destruct (currentSelection s) as [sel |]; [| exact Hinv].
  destruct (rendition s) as [r |] eqn:Hr; [| exact Hinv].
  destruct (findParentMark (Some r) (marks s) (Selection.cfiRange sel))
    as [parentMark |] eqn:Hparent; [| exact Hinv].
  apply findParentMark_elem in Hparent.
  intros n i Hin Hid. simpl in *.
  apply elem_of_app in Hin as [Hin | Hin]; [now apply (Hinv n i) |].
  apply list_elem_of_singleton in Hin. subst n. simpl in Hid. injection Hid as <-.
  now exists parentMark.
Qed.

Lemma undoLastHighlight_no_dangling (s : App) :
  no_dangling s -> no_dangling (state (undoLastHighlight s)).
Proof.
  intros Hinv. unfold undoLastHighlight.
  destruct (notes s) as [| n0 ns] eqn:Hnotes; [exact Hinv |].
  intros n i Hin Hid. simpl state in *. simpl marks. simpl notes in Hin.
  apply (Hinv n i); [| exact Hid]. rewrite Hnotes.
  now apply (subseteq_take (length (n0 :: ns) - 1)).
Qed.

(** ** Creating a note: rejection and parent *)

(** C3. With text selected in a rendered book, when the position of the
    selection is not known or no mark lies at or before it, [addHighlight]
    and [applyFormatting] stop at the alert: the state (marks, notes and
    the rest) is the one they started from, no note is built, and nothing
    is sent, so the files of the server stay as they are. *)
Theorem createNote_without_preceding_mark (c : Clock) (s : App)
    (sel : Selection.t) (r : Rendition) (formatType : string) :
  currentSelection s = Some sel ->
  rendition s = Some r ->
  (resolve (rendition s) (Selection.cfiRange sel) = None \/
   exists p, resolve (rendition s) (Selection.cfiRange sel) = Some p /\
             no_preceding r p (marks s)) ->
  addHighlight c s =
    mkResult s []
      (Alert "Please create a mark (bookmark) before adding highlights. Marks organize your notes.") /\
  applyFormatting formatType c s =
    mkResult s []
      (Alert "Please create a mark (bookmark) before adding underlines. Marks organize your notes.") /\
  forall (text : Type) (JSON_stringify : json -> text) (JSON_parse : text -> option json)
         (data : gmap string text),
    serve_all JSON_stringify JSON_parse (sent (addHighlight c s)) data = data /\
    serve_all JSON_stringify JSON_parse (sent (applyFormatting formatType c s)) data = data.
Proof.
  intros Hsel Hr Hpre.
  assert (findParentMark (rendition s) (marks s) (Selection.cfiRange sel) = None)
    as Hnone.
  { destruct Hpre as [Hunres | (p & Hp & Hno)].
    - now apply findParentMark_unresolved.
    - rewrite Hr in *. now apply findParentMark_no_preceding with (p := p). }
  unfold addHighlight, applyFormatting.
  rewrite !(createNote_rejected _ _ c s sel r Hsel Hr Hnone).
  repeat split.
Qed.

(** M1 and M2 both lie after 0.05. *)
Lemma early_has_no_preceding :
  no_preceding Example.book (5 # 100) (marks Example.selecting_early).
Proof.
  intros m q Hin Hq Hle. simpl in Hin.
  apply elem_of_cons in Hin as [-> | Hin].
  - injection Hq as <-. revert Hle. now vm_compute.
  - apply list_elem_of_singleton in Hin. subst m.
    injection Hq as <-. revert Hle. now vm_compute.
Defined.

(** A highlight at 0.05, before M1 and M2, is turned down. *)
Lemma createNote_without_preceding_mark_witness :
  addHighlight Example.clock Example.selecting_early =
    mkResult Example.selecting_early []
      (Alert "Please create a mark (bookmark) before adding highlights. Marks organize your notes.").
Proof.
  refine (proj1 (createNote_without_preceding_mark Example.clock Example.selecting_early
                   (Selection.mk "cfi@0.05" "Preface") Example.book "underline"
                   eq_refl eq_refl _)).
  right. exists (5 # 100). split; [reflexivity | exact early_has_no_preceding].
Defined.

(** C4. With text selected at a known position [p] and some mark at or
    before [p], the note appended by [addHighlight] and by
    [applyFormatting] is filed under a mark [m] at [q <= p] such that every
    mark at or before [p] lies at or before [q], and every such mark stored
    before [m] lies strictly before [q]: [m] is the first stored of the
    marks at the greatest position not after the note. *)
Theorem createNote_nearest_preceding_mark (c : Clock) (s : App)
    (sel : Selection.t) (r : Rendition) (p : Q) (m0 : Mark.t) (q0 : Q)
    (formatType : string) :
  currentSelection s = Some sel ->
  rendition s = Some r ->
  resolve (rendition s) (Selection.cfiRange sel) = Some p ->
  m0 ∈ marks s ->
  percentageFromCfi r (Mark.cfiRange m0) = Some q0 ->
  (q0 <= p)%Q ->
  exists i m q,
    nearest_preceding r p (marks s) i m q /\
    (exists n,
       notes (state (addHighlight c s)) = notes s ++ [n] /\
       Note.markId n = Some (Mark.id m) /\
       Note.cfiRange n = Selection.cfiRange sel /\
       outcome (addHighlight c s) = Done) /\
    (exists n,
       notes (state (applyFormatting formatType c s)) = notes s ++ [n] /\
       Note.markId n = Some (Mark.id m) /\
       Note.cfiRange n = Selection.cfiRange sel /\
       outcome (applyFormatting formatType c s) = Done).
Proof.
  intros Hsel Hr Hp Hin Hq0 Hle. rewrite Hr in Hp.
  destruct (findParentMark_preceding r (marks s) _ p m0 q0 Hp Hin Hq0 Hle)
    as (i & m & q & Hparent & Hbest).
  rewrite <- Hr in Hparent.
  exists i, m, q. split; [exact Hbest |].
  unfold addHighlight, applyFormatting.
  rewrite !(createNote_created _ _ c s sel r m Hsel Hr Hparent).
  split; eexists; simpl; repeat split.
Qed.

(** A highlight and an underline at 0.6, with M1 at 0.1 and M2 at 0.5. *)
Lemma createNote_nearest_preceding_mark_witness :
  exists i m q,
    nearest_preceding Example.book (6 # 10) (marks Example.selecting) i m q /\
    (exists n,
       notes (state (addHighlight Example.clock Example.selecting))
         = notes Example.selecting ++ [n] /\
       Note.markId n = Some (Mark.id m) /\
       Note.cfiRange n = "cfi@0.6" /\
       outcome (addHighlight Example.clock Example.selecting) = Done) /\
    (exists n,
       notes (state (applyFormatting "underline" Example.clock Example.selecting))
         = notes Example.selecting ++ [n] /\
       Note.markId n = Some (Mark.id m) /\
       Note.cfiRange n = "cfi@0.6" /\
       outcome (applyFormatting "underline" Example.clock Example.selecting) = Done).
Proof.
  refine (createNote_nearest_preceding_mark Example.clock Example.selecting
            (Selection.mk "cfi@0.6" "and the rain fell") Example.book (6 # 10)
            Example.M1 (1 # 10) "underline" eq_refl eq_refl eq_refl _ eq_refl _).
  - apply list_elem_of_lookup. now exists 0%nat.
  - now vm_compute.
Defined.

(** Regressions: the nearest mark wins, the first stored wins among marks
    at one position, and a mark after the note is never chosen. *)
Example findParentMark_nearest :
  findParentMark (Some Example.book) [Example.M1; Example.M2] "cfi@0.6"
    = Some Example.M2.
Proof. vm_compute. reflexivity. Qed.

Example findParentMark_first_of_equals :
  findParentMark (Some Example.book)
    [Example.M1; Example.M2; Mark.with_name "Again" Example.M2] "cfi@0.6"
    = Some Example.M2.
Proof. vm_compute. reflexivity. Qed.

Example findParentMark_before_all_marks :
  findParentMark (Some Example.book) [Example.M1; Example.M2] "cfi@0.05" = None.
Proof. vm_compute. reflexivity. Qed.

(** ** The sorted view of the marks *)

Section Sorting.
Context {A : Type}.
Variable key : A -> Q.
Variable compare : A -> A -> Q.
Hypothesis compare_key : forall a b, (compare a b <= 0)%Q <-> (key a <= key b)%Q.

Lemma sort_insert_perm (x : A) (l : list A) :
  Permutation (x :: l) (sort_insert compare x l).
Proof.
  induction l as [| y l IH]; simpl; [reflexivity |].
  destruct (Qle_bool (compare x y) 0); [reflexivity |].
  rewrite perm_swap. now apply perm_skip.
Qed.

Lemma Array_sort_perm (l : list A) : Permutation l (Array_sort compare l).
Proof.
  induction l as [| x l IH]; simpl; [reflexivity |].
  rewrite <- sort_insert_perm. now apply perm_skip.
Qed.

Lemma sort_insert_sorted (x : A) (l : list A) :
  StronglySorted (fun a b => (key a <= key b)%Q) l ->
  StronglySorted (fun a b => (key a <= key b)%Q) (sort_insert compare x l).
Proof.
  induction l as [| y l IH]; intros Hl; simpl.
  - constructor; [constructor | constructor].
  - inversion Hl as [| ? ? Hsorted Hall]; subst.
    destruct (Qle_bool (compare x y) 0) eqn:Hcmp.
    + apply Qle_bool_iff, compare_key in Hcmp.
      constructor; [exact Hl |]. constructor; [exact Hcmp |].
      eapply Forall_impl; [exact Hall |]. intros z Hz. simpl in Hz. lra.
    + apply Qle_bool_false in Hcmp.
      assert (key y <= key x)%Q as Hyx.
      { destruct (Qlt_le_dec (key x) (key y)) as [Hlt | Hge]; [| exact Hge].
        exfalso. apply Hcmp, compare_key. lra. }
      constructor; [now apply IH |].
      eapply Permutation_Forall; [apply sort_insert_perm |].
      now constructor.
Qed.

Lemma Array_sort_sorted (l : list A) :
  StronglySorted (fun a b => (key a <= key b)%Q) (Array_sort compare l).
Proof.
  induction l as [| x l IH]; simpl; [constructor |].
  now apply sort_insert_sorted.
Qed.

Lemma sort_insert_stable (k : Q) (x : A) (l : list A) :
  List.filter (fun a => Qeq_bool (key a) k) (sort_insert compare x l)
  = List.filter (fun a => Qeq_bool (key a) k) (x :: l).
Proof.
  induction l as [| y l IH]; [reflexivity |].
  cbn [sort_insert]. destruct (Qle_bool (compare x y) 0) eqn:Hcmp; [reflexivity |].
  apply Qle_bool_false in Hcmp.
  cbn [List.filter] in *. rewrite IH.
  destruct (Qeq_bool (key x) k) eqn:Hx, (Qeq_bool (key y) k) eqn:Hy; try reflexivity.
  apply Qeq_bool_iff in Hx, Hy. exfalso. apply Hcmp, compare_key. lra.
Qed.

Lemma Array_sort_stable (k : Q) (l : list A) :
  List.filter (fun a => Qeq_bool (key a) k) (Array_sort compare l)
  = List.filter (fun a => Qeq_bool (key a) k) l.
Proof.
  induction l as [| x l IH]; [reflexivity |].
  cbn [Array_sort foldr]. fold (Array_sort compare l).
  rewrite sort_insert_stable. cbn [List.filter]. now rewrite IH.
Qed.

Lemma Array_sort_stable_sorted (l : list A) :
  stable_sorted_by key l (Array_sort compare l).
Proof.
  split; [apply Array_sort_perm |].
  split; [apply Array_sort_sorted |].
  intros k. apply Array_sort_stable.
Qed.
End Sorting.

Lemma compareMarks_ready (r : Rendition) (a b : Mark.t) :
  (0 < total r)%Z ->
  (compareMarks (Some r) a b <= 0)%Q <->
  (percentage_or_0 r (Mark.cfiRange a) <= percentage_or_0 r (Mark.cfiRange b))%Q.
Proof.
  intros Hready. apply Z.ltb_lt in Hready.
  unfold compareMarks. rewrite Hready. split; intros H; lra.
Qed.

Lemma compareMarks_not_ready (rendition : option Rendition) (a b : Mark.t) :
  rendition = None \/ (exists r, rendition = Some r /\ (total r <= 0)%Z) ->
  (compareMarks rendition a b <= 0)%Q <->
  (inject_Z (Mark.timestamp a) <= inject_Z (Mark.timestamp b))%Q.
Proof.
  assert ((inject_Z (Mark.timestamp a - Mark.timestamp b) <= 0)%Q <->
          (inject_Z (Mark.timestamp a) <= inject_Z (Mark.timestamp b))%Q) as Hts.
  { rewrite <- Zle_Qle. unfold Qle. simpl. lia. }
  intros [-> | (r & -> & Hle)]; [exact Hts |].
  apply Z.ltb_ge in Hle. unfold compareMarks. now rewrite Hle.
Qed.

(** C5, the claim as it stands, fails: with the locations ready, a mark
    the book cannot place is sorted as if it stood at position 0 and comes
    before the mark at 0.5, not after it. *)
Lemma sortedMarks_unresolved_first :
  sortedMarks Example.with_lost = [Example.lost; Example.M2] /\
  percentageFromCfi Example.book (Mark.cfiRange Example.lost) = None /\
  ~ unresolved_after_resolved Example.book (sortedMarks Example.with_lost).
Proof.
  assert (sortedMarks Example.with_lost = [Example.lost; Example.M2]) as E
    by (vm_compute; reflexivity).
  split; [exact E |]. split; [reflexivity |].
  rewrite E. intros Hclaim.
  specialize (Hclaim 0%nat 1%nat Example.lost Example.M2 eq_refl eq_refl eq_refl).
  assert (1 < 0) as Habs by (apply Hclaim; now eexists).
  lia.
Qed.

(** C5, amended. Once the locations are ready ([total > 0]) the sorted
    view holds the marks in ascending order of position, a mark without a
    position counting as one at position 0, and marks of equal position
    (the unplaced ones among them) in their stored order; until then it
    holds them in ascending order of [timestamp], equal ones in their
    stored order. *)
Theorem sortedMarks_order (s : App) :
  (forall r, rendition s = Some r /\ (0 < total r)%Z ->
     stable_sorted_by (fun m => percentage_or_0 r (Mark.cfiRange m))
                      (marks s) (sortedMarks s)) /\
  (rendition s = None \/ (exists r, rendition s = Some r /\ (total r <= 0)%Z) ->
     stable_sorted_by (fun m => inject_Z (Mark.timestamp m))
                      (marks s) (sortedMarks s)).
Proof.
  unfold sortedMarks. split.
  - intros r [-> Hready]. apply Array_sort_stable_sorted.
    intros a b. now apply compareMarks_ready.
  - intros Hnot. apply Array_sort_stable_sorted.
    intros a b. now apply compareMarks_not_ready.
Qed.

(** The view of M2 and the unplaced mark, the locations being ready. *)
Lemma sortedMarks_order_witness :
  stable_sorted_by (fun m => percentage_or_0 Example.book (Mark.cfiRange m))
                   (marks Example.with_lost) (sortedMarks Example.with_lost).
Proof.
  apply (proj1 (sortedMarks_order Example.with_lost) Example.book).
  split; [reflexivity | reflexivity].
Defined.

(** ** Deleting a mark that is not there *)

Lemma filter_all {A : Type} (P : A -> Prop) `{forall x, Decision (P x)} (l : list A) :
  (forall x, x ∈ l -> P x) -> filter P l = l.
Proof.
  induction l as [| a l IH]; intros Hall; [reflexivity |].
  rewrite filter_cons_True by (apply Hall; now left).
  f_equal. apply IH. intros x Hx. apply Hall. now right.
Qed.

Lemma filter_twice {A : Type} (P : A -> Prop) `{forall x, Decision (P x)} (l : list A) :
  filter P (filter P l) = filter P l.
Proof.
  apply filter_all. intros x Hx. now apply list_elem_of_filter in Hx as [HP _].
Qed.

(** C6, the claim as it stands, fails: the handler has no check that the
    mark exists. Deleting M1 a second time runs like any deletion; it ends
    as the first call did and sends both collections again. *)
Lemma deleteMark_twice_not_rejected :
  let r1 := deleteMarkWithReassignment "mark-1" Example.reading in
  let r2 := deleteMarkWithReassignment "mark-1" (state r1) in
  outcome r2 = Done /\
  outcome r2 <> NotFound /\
  sent r2 = [UpdateMarks [Example.M2]; UpdateNotes [Example.N]].
Proof.
  intros r1 r2. split; [reflexivity |].
  split; [vm_compute; discriminate | vm_compute; reflexivity].
Qed.

(** C6, amended. Deleting the same mark id a second time reports no
    failure: the handler runs through and sends both collections again. It
    leaves the marks as the first call left them, and leaves every note
    that is not filed under that id as it is, at its place; when no note is
    filed under that id, the state after the second call is the state
    after the first. *)
Theorem deleteMark_second_call (markId : string) (s : App) :
  let r1 := deleteMarkWithReassignment markId s in
  let r2 := deleteMarkWithReassignment markId (state r1) in
  outcome r2 = Done /\
  sent r2 = [UpdateMarks (marks (state r2)); UpdateNotes (notes (state r2))] /\
  marks (state r2) = marks (state r1) /\
  length (notes (state r2)) = length (notes (state r1)) /\
  (forall i n, notes (state r1) !! i = Some n ->
               Note.markId n <> Some markId ->
               notes (state r2) !! i = Some n) /\
  ((forall n, n ∈ notes (state r1) -> Note.markId n <> Some markId) ->
   state r2 = state r1).
Proof.
  intros r1 r2.
  assert (marks (state r2) = marks (state r1)) as Hmarks.
  { subst r1 r2. simpl. apply filter_twice. }
  split; [reflexivity |]. split; [reflexivity |]. split; [exact Hmarks |].
  split; [subst r1 r2; simpl; now rewrite length_fmap |].
  split.
  - intros i n Hi Hne. subst r2. unfold deleteMarkWithReassignment at 1. cbn [state notes set_notes].
    rewrite list_lookup_fmap, Hi. simpl.
    now destruct (decide (Note.markId n = Some markId)).
  - intros Hnone.
    assert (notes (state r2) = notes (state r1)) as Hnotes.
    { subst r2. unfold deleteMarkWithReassignment at 1. cbn [state notes set_notes].
      rewrite <- (list_fmap_id (notes (state r1))) at 2.
      apply list_fmap_ext. intros i n Hi.
      destruct (decide (Note.markId n = Some markId)) as [Heq | _]; [| reflexivity].
      exfalso. apply (Hnone n); [| exact Heq].
      apply list_elem_of_lookup. now exists i. }
    assert (rendition (state r2) = rendition (state r1)
            /\ currentColor (state r2) = currentColor (state r1)
            /\ currentSelection (state r2) = currentSelection (state r1)
            /\ expandedMarks (state r2) = expandedMarks (state r1))
      as (Hr & Hc & Hs & He) by (subst r1 r2; repeat split).
    destruct (state r2), (state r1). simpl in *. congruence.
Qed.

(** The second deletion of M1, under which no note is filed, changes
    nothing. *)
Lemma deleteMark_second_call_witness :
  state (deleteMarkWithReassignment "mark-1"
           (state (deleteMarkWithReassignment "mark-1" Example.reading)))
  = state (deleteMarkWithReassignment "mark-1" Example.reading).
Proof.
  pose proof (deleteMark_second_call "mark-1" Example.reading) as H.
  cbv zeta in H. destruct H as (_ & _ & _ & _ & _ & H). apply H.
  assert (notes (state (deleteMarkWithReassignment "mark-1" Example.reading))
          = [Example.N]) as -> by (vm_compute; reflexivity).
  intros n Hin. apply list_elem_of_singleton in Hin. subst n. discriminate.
Defined.

(** ** Deleting a note and undoing *)

Lemma deleteNote_found (noteId : string) (s : App) (n : Note.t) :
  n ∈ notes s -> Note.id n = noteId ->
  deleteNote noteId s =
    let updatedNotes := filter (fun note => Note.id note <> noteId) (notes s) in
    mkResult (set_notes updatedNotes s) [UpdateNotes updatedNotes] Done.
Proof.
  intros Hin Hid. unfold deleteNote.
  destruct (list_find _ (notes s)) as [found |] eqn:Hfind; [reflexivity |].
  exfalso. apply list_find_None in Hfind.
  rewrite Forall_forall in Hfind. now apply (Hfind n).
Qed.

Lemma deleteNote_absent (noteId : string) (s : App) :
  (forall n, n ∈ notes s -> Note.id n <> noteId) ->
  deleteNote noteId s = mkResult s [] NotFound.
Proof.
  intros Habsent. unfold deleteNote.
  destruct (list_find _ (notes s)) as [[i n] |] eqn:Hfind; [| reflexivity].
  exfalso. apply list_find_Some in Hfind as (Hi & Hid & _).
  apply (Habsent n); [| exact Hid]. apply list_elem_of_lookup. now exists i.
Qed.

(** C9. Deleting the note that carries an id (ids being unique, no other
    note carries it) takes that one record out of the notes: the notes
    before it and after it stay as they are, fields and order, the marks
    and the rest of the state stay as they are, and the notes that remain
    are what is sent. *)
Theorem deleteNote_removes_that_note (noteId : string) (s : App)
    (before after : list Note.t) (n : Note.t) :
  notes s = before ++ n :: after ->
  Note.id n = noteId ->
  (forall n', n' ∈ before ++ after -> Note.id n' <> noteId) ->
  deleteNote noteId s =
    mkResult (set_notes (before ++ after) s) [UpdateNotes (before ++ after)] Done /\
  notes (state (deleteNote noteId s)) = before ++ after /\
  marks (state (deleteNote noteId s)) = marks s.
Proof.
  intros Hnotes Hid Hothers.
  assert (filter (fun note => Note.id note <> noteId) (notes s) = before ++ after)
    as Hfilter.
  { rewrite Hnotes, filter_app, filter_cons_False by (intros Hne; now apply Hne).
    rewrite <- filter_app. now apply filter_all. }
  rewrite (deleteNote_found noteId s n); [| | exact Hid].
  - cbv zeta. rewrite Hfilter. repeat split.
  - rewrite Hnotes. apply elem_of_app. right. now left.
Qed.

(** Deleting N out of N and N2. *)
Lemma deleteNote_removes_that_note_witness :
  deleteNote "note-3" Example.annotated =
    mkResult (set_notes [Example.N2] Example.annotated) [UpdateNotes [Example.N2]] Done.
Proof.
  refine (proj1 (deleteNote_removes_that_note "note-3" Example.annotated
                   [] [Example.N2] Example.N eq_refl eq_refl _)).
  intros n' Hin. apply list_elem_of_singleton in Hin. subst n'. discriminate.
Defined.

(** C10. With notes present, undo takes the last note off the collection
    and sends what remains: afterwards the notes are exactly the notes
    before the last one, in their order, and the marks and every other cell
    of the state are as they were. With no note, undo leaves the state as
    it is and sends nothing. *)
Theorem undoLastHighlight_removes_last (s : App) :
  (forall earlier last, notes s = earlier ++ [last] ->
     notes (state (undoLastHighlight s)) = earlier /\
     marks (state (undoLastHighlight s)) = marks s /\
     rendition (state (undoLastHighlight s)) = rendition s /\
     currentColor (state (undoLastHighlight s)) = currentColor s /\
     currentSelection (state (undoLastHighlight s)) = currentSelection s /\
     expandedMarks (state (undoLastHighlight s)) = expandedMarks s /\
     sent (undoLastHighlight s) = [UpdateNotes earlier] /\
     outcome (undoLastHighlight s) = Done /\
     undoLastHighlight s
     = mkResult (mkApp (rendition s) (currentColor s) (currentSelection s)
                       (marks s) earlier (expandedMarks s))
                [UpdateNotes earlier] Done) /\
  (notes s = [] ->
   undoLastHighlight s = mkResult s [] Ignored /\
   notes (state (undoLastHighlight s)) = [] /\
   marks (state (undoLastHighlight s)) = marks s /\
   sent (undoLastHighlight s) = []) /\
  marks (state (undoLastHighlight s)) = marks s.
Proof.
  split; [| split].
  - intros earlier last Hnotes.
    assert (undoLastHighlight s
            = mkResult (mkApp (rendition s) (currentColor s) (currentSelection s)
                              (marks s) earlier (expandedMarks s))
                       [UpdateNotes earlier] Done) as ->.
    { unfold undoLastHighlight. rewrite Hnotes.
      assert (take (length (earlier ++ [last]) - 1) (earlier ++ [last]) = earlier)
        as ->.
      { apply take_app_length'. rewrite length_app. simpl. lia. }
      now destruct earlier. }
    cbn [state sent outcome notes marks rendition currentColor currentSelection
         expandedMarks].
    repeat split.
  - intros Hnotes. unfold undoLastHighlight. rewrite Hnotes.
    cbn [state sent]. now rewrite Hnotes.
  - unfold undoLastHighlight. now destruct (notes s).
Qed.

(** Undo with N and N2 takes N2 off: N alone remains, M1 and M2 stay. *)
Lemma undoLastHighlight_removes_last_witness :
  notes (state (undoLastHighlight Example.annotated)) = [Example.N] /\
  marks (state (undoLastHighlight Example.annotated)) = [Example.M1; Example.M2] /\
  sent (undoLastHighlight Example.annotated) = [UpdateNotes [Example.N]].
Proof.
  destruct (proj1 (undoLastHighlight_removes_last Example.annotated)
              [Example.N] Example.N2 eq_refl)
    as (Hnotes & Hmarks & _ & _ & _ & _ & Hsent & _).
  split; [exact Hnotes |]. split; [exact Hmarks | exact Hsent].
Defined.

(** ** Persistence *)

Section StoredFacts.
Context {text : Type}.
Variable JSON_stringify : json -> text.
Variable JSON_parse : text -> option json.

Lemma prop_singleton (key : string) (v : json) :
  prop key (JObject [(key, v)]) = Some v.
Proof.
  simpl. now rewrite decide_True.
Qed.

Lemma update_collection_array (filename field message : string)
    (items : list json) (data : gmap string text) :
  update_collection JSON_stringify filename field message
                    (JObject [(field, JArray items)]) data
  = (<[filename := JSON_stringify (JArray items)]> data, Success message).
Proof.
  unfold update_collection. now rewrite prop_singleton.
Qed.

Lemma serve_UpdateMarks (ms : list Mark.t) (data : gmap string text) :
  serve JSON_stringify JSON_parse (UpdateMarks ms) data
  = (<["marks.json" := JSON_stringify (JArray (mark_to_json <$> ms))]> data,
     Success "Marks updated successfully").
Proof. apply update_collection_array. Qed.

Lemma serve_UpdateNotes (ns : list Note.t) (data : gmap string text) :
  serve JSON_stringify JSON_parse (UpdateNotes ns) data
  = (<["notes.json" := JSON_stringify (JArray (note_to_json <$> ns))]> data,
     Success "Notes updated successfully").
Proof. apply update_collection_array. Qed.

Lemma serve_SaveMark (m : Mark.t) (data : gmap string text) (existing : list json) :
  read_or_empty JSON_parse "marks.json" data = JArray existing ->
  serve JSON_stringify JSON_parse (SaveMark m) data
  = (<["marks.json" := JSON_stringify (JArray (existing ++ [mark_to_json m]))]> data,
     Success "Mark saved successfully").
Proof.
  intros Hread. simpl. unfold save_mark, save_record. now rewrite Hread.
Qed.

Lemma serve_SaveNote (n : Note.t) (data : gmap string text) (existing : list json) :
  read_or_empty JSON_parse "notes.json" data = JArray existing ->
  serve JSON_stringify JSON_parse (SaveNote n) data
  = (<["notes.json" := JSON_stringify (JArray (existing ++ [note_to_json n]))]> data,
     Success "Note saved successfully").
Proof.
  intros Hread. simpl. unfold save_note, save_record. now rewrite Hread.
Qed.

Lemma replaces_marks_intro (r : Result) (qs : list Request) :
  sent r = UpdateMarks (marks (state r)) :: qs ->
  (forall q, q ∈ qs -> exists ns, q = UpdateNotes ns) ->
  replaces_marks JSON_stringify JSON_parse r.
Proof.
  intros Hsent Hrest data. rewrite Hsent. unfold serve_all.
  cbn [fold_left]. rewrite serve_UpdateMarks. cbn [fst].
  set (d := <["marks.json" := _]> data).
  assert (d !! "marks.json"
          = Some (JSON_stringify (JArray (mark_to_json <$> marks (state r))))) as Hd
    by apply lookup_insert_eq.
  clearbody d. clear Hsent. revert d Hd.
  induction qs as [| q qs IH]; intros d Hd; [exact Hd |].
  cbn [fold_left]. apply IH.
  - intros q' Hq'. apply Hrest. now right.
  - destruct (Hrest q) as [ns ->]; [now left |].
    rewrite serve_UpdateNotes. cbn [fst]. now rewrite lookup_insert_ne.
Qed.

Lemma replaces_notes_intro (r : Result) (qs : list Request) :
  sent r = qs ++ [UpdateNotes (notes (state r))] ->
  replaces_notes JSON_stringify JSON_parse r.
Proof.
  intros Hsent data. rewrite Hsent. unfold serve_all.
  rewrite fold_left_app. cbn [fold_left]. rewrite serve_UpdateNotes. cbn [fst].
  apply lookup_insert_eq.
Qed.
End StoredFacts.

(** C8. For a collection [X] that the runtime writes and reads back as it
    is ([JSON.parse] of [JSON.stringify] of [X] is [X]; the empty array is
    one), [POST /api/update-marks] with [X] succeeds and the
    [GET /api/load-marks] that follows returns [X], whatever the files held
    before. *)
Theorem update_marks_then_load_marks {text : Type}
    (JSON_stringify : json -> text) (JSON_parse : text -> option json)
    (X : list json) (data : gmap string text) :
  JSON_parse (JSON_stringify (JArray X)) = Some (JArray X) ->
  update_marks JSON_stringify (JObject [("marks", JArray X)]) data
    = (<["marks.json" := JSON_stringify (JArray X)]> data,
       Success "Marks updated successfully") /\
  load_marks JSON_parse
    (fst (update_marks JSON_stringify (JObject [("marks", JArray X)]) data))
    = SuccessData (JArray X).
Proof.
  intros Hround. unfold update_marks. rewrite update_collection_array.
  split; [reflexivity |].
  unfold load_marks, load_collection, read_or_empty. cbn [fst].
  now rewrite lookup_insert_eq, Hround.
Qed.

(** Saving [[M1]], and saving the empty collection, into an empty data
    directory. *)
Lemma update_marks_then_load_marks_witness :
  load_marks Example.parse
    (fst (update_marks Example.stringify
            (JObject [("marks", JArray [mark_to_json Example.M1])]) ∅))
  = SuccessData (JArray [mark_to_json Example.M1]) /\
  load_marks Example.parse
    (fst (update_marks Example.stringify (JObject [("marks", JArray [])]) ∅))
  = SuccessData (JArray []).
Proof.
  split.
  - exact (proj2 (update_marks_then_load_marks Example.stringify Example.parse
                    [mark_to_json Example.M1] ∅ eq_refl)).
  - exact (proj2 (update_marks_then_load_marks Example.stringify Example.parse
                    [] ∅ eq_refl)).
Defined.

(** C7, the claim as it stands, fails: [addMark] changes the marks and
    sends the one new mark, not the three the state then holds, and
    [POST /api/save-mark] writes the two records the file held followed by
    the one it received. *)
Lemma addMark_sends_one_record :
  let r := addMark Example.clock Example.selecting in
  let markData :=
    Mark.mk "mark-7" "cfi@0.6" "and the rain fell" "Episode 3" "" 7
            "2024-05-01T10:00:00.007Z" in
  let stored : gmap string json :=
    {[ "marks.json" := JArray [mark_to_json Example.M1; mark_to_json Example.M2] ]} in
  marks (state r) = [Example.M1; Example.M2; markData] /\
  sent r = [SaveMark markData] /\
  ~ sends_whole_collections r /\
  serve_all Example.stringify Example.parse (sent r) stored !! "marks.json"
  = Some (JArray [mark_to_json Example.M1; mark_to_json Example.M2;
                  mark_to_json markData]).
Proof.
  intros r markData stored.
  assert (sent r = [SaveMark markData]) as Hsent by (vm_compute; reflexivity).
  split; [vm_compute; reflexivity |]. split; [exact Hsent |]. split.
  - intros Hwhole. destruct (Hwhole (SaveMark markData)) as [H | H].
    + rewrite Hsent. now left.
    + discriminate H.
    + discriminate H.
  - rewrite Hsent. unfold serve_all. cbn [fold_left].
    rewrite (serve_SaveMark _ _ _ _
               [mark_to_json Example.M1; mark_to_json Example.M2]).
    + cbn [fst]. now rewrite lookup_insert_eq.
    + unfold read_or_empty, stored. now rewrite lookup_singleton_eq.
Qed.

Lemma sends_whole_collections_intro (r : Result) :
  Forall (fun q => q = UpdateMarks (marks (state r)) \/
                   q = UpdateNotes (notes (state r))) (sent r) ->
  sends_whole_collections r.
Proof.
  intros Hall q Hq. rewrite Forall_forall in Hall. now apply Hall.
Qed.

Ltac whole_collections :=
  apply sends_whole_collections_intro; simpl;
  repeat (constructor; [first [left; reflexivity | right; reflexivity] |]);
  constructor.

Lemma createNote_Done (alertText noteType : string) (c : Clock) (s : App) :
  outcome (createNote alertText noteType c s) = Done ->
  exists noteData,
    notes (state (createNote alertText noteType c s)) = notes s ++ [noteData] /\
    sent (createNote alertText noteType c s) = [SaveNote noteData].
Proof.
  unfold createNote.
  destruct (currentSelection s) as [sel |]; [| discriminate].
  destruct (rendition s) as [r |]; [| discriminate].
  destruct (findParentMark _ _ _) as [parentMark |]; [| discriminate].
  intros _. now eexists.
Qed.

Lemma appends_to_intro {text : Type} (JSON_stringify : json -> text)
    (JSON_parse : text -> option json) (r : Result) :
  (forall markData, sent r = [SaveMark markData] ->
     appends_to JSON_stringify JSON_parse "marks.json" r (mark_to_json markData)) /\
  (forall noteData, sent r = [SaveNote noteData] ->
     appends_to JSON_stringify JSON_parse "notes.json" r (note_to_json noteData)).
Proof.
  split; intros record Hsent data existing Hread; rewrite Hsent;
    unfold serve_all; cbn [fold_left].
  - rewrite (serve_SaveMark _ _ _ _ existing Hread). apply lookup_insert_eq.
  - rewrite (serve_SaveNote _ _ _ _ existing Hread). apply lookup_insert_eq.
Qed.

(** C7, amended. The handlers that rename, edit, delete or undo
    ([saveMarkName], [saveMarkText], [saveNoteText], [deleteNote],
    [deleteMarkWithReassignment], [undoLastHighlight]) send nothing but
    whole collections, those of the state they leave, and the server
    replaces the file by what it received. The handlers that create
    ([addMark], [addHighlight], [applyFormatting]) send the one new record,
    and the server writes back the records of the file followed by it. *)
Theorem handlers_persist {text : Type}
    (JSON_stringify : json -> text) (JSON_parse : text -> option json) (s : App) :
  (forall markId newName,
     let r := saveMarkName markId newName s in
     sends_whole_collections r /\ replaces_marks JSON_stringify JSON_parse r) /\
  (forall markId newMarkText,
     let r := saveMarkText markId newMarkText s in
     sends_whole_collections r /\ replaces_marks JSON_stringify JSON_parse r) /\
  (forall noteId newNoteText,
     let r := saveNoteText noteId newNoteText s in
     sends_whole_collections r /\ replaces_notes JSON_stringify JSON_parse r) /\
  (forall noteId,
     let r := deleteNote noteId s in
     sends_whole_collections r /\
     (outcome r = Done -> replaces_notes JSON_stringify JSON_parse r)) /\
  (forall markId,
     let r := deleteMarkWithReassignment markId s in
     sends_whole_collections r /\
     replaces_marks JSON_stringify JSON_parse r /\
     replaces_notes JSON_stringify JSON_parse r) /\
  (let r := undoLastHighlight s in
   sends_whole_collections r /\
   (outcome r = Done -> replaces_notes JSON_stringify JSON_parse r)) /\
  (forall c,
     let r := addMark c s in
     outcome r = Done ->
     exists markData,
       marks (state r) = marks s ++ [markData] /\
       sent r = [SaveMark markData] /\
       appends_to JSON_stringify JSON_parse "marks.json" r (mark_to_json markData)) /\
  (forall c,
     let r := addHighlight c s in
     outcome r = Done ->
     exists noteData,
       notes (state r) = notes s ++ [noteData] /\
       sent r = [SaveNote noteData] /\
       appends_to JSON_stringify JSON_parse "notes.json" r (note_to_json noteData)) /\
  (forall c formatType,
     let r := applyFormatting formatType c s in
     outcome r = Done ->
     exists noteData,
       notes (state r) = notes s ++ [noteData] /\
       sent r = [SaveNote noteData] /\
       appends_to JSON_stringify JSON_parse "notes.json" r (note_to_json noteData)).
Proof.
  assert (forall r, sent r = [UpdateMarks (marks (state r))] ->
                    replaces_marks JSON_stringify JSON_parse r) as Hmarks.
  { intros r Hsent. apply (replaces_marks_intro _ _ r [] Hsent).
    intros q Hq. now apply not_elem_of_nil in Hq. }
  assert (forall r, sent r = [UpdateNotes (notes (state r))] ->
                    replaces_notes JSON_stringify JSON_parse r) as Hnotes.
  { intros r Hsent. now apply (replaces_notes_intro _ _ r []). }
  repeat match goal with |- _ /\ _ => split end.
  - intros markId newName r. split; [subst r; whole_collections | now apply Hmarks].
  - intros markId newMarkText r. split; [subst r; whole_collections | now apply Hmarks].
  - intros noteId newNoteText r. split; [subst r; whole_collections | now apply Hnotes].
  - intros noteId r. subst r. unfold deleteNote.
    destruct (list_find _ (notes s)).
    + split; [whole_collections | intros _; now apply Hnotes].
    + split; [whole_collections | discriminate].
  - intros markId r. split; [subst r; whole_collections |]. split.
    + apply (replaces_marks_intro _ _ r [UpdateNotes (notes (state r))] eq_refl).
      intros q Hq. apply list_elem_of_singleton in Hq. subst q. now eexists.
    + now apply (replaces_notes_intro _ _ r [UpdateMarks (marks (state r))]).
  - intros r. subst r. unfold undoLastHighlight.
    destruct (notes s) as [| n ns].
    + split; [whole_collections | discriminate].
    + split; [whole_collections | intros _; now apply Hnotes].
  - intros c r Hdone.
    assert (exists markData, marks (state r) = marks s ++ [markData] /\
                             sent r = [SaveMark markData]) as (markData & Hm & Hsent).
    { subst r. revert Hdone. unfold addMark.
      destruct (currentSelection s) as [sel |]; [| discriminate].
      destruct (rendition s) as [rd |]; [| discriminate].
      intros _. now eexists. }
    exists markData. repeat split; try assumption.
    now apply appends_to_intro.
  - intros c r Hdone.
    destruct (createNote_Done _ _ c s Hdone) as (noteData & Hn & Hsent).
    exists noteData. repeat split; try assumption.
    now apply appends_to_intro.
  - intros c formatType r Hdone.
    destruct (createNote_Done _ _ c s Hdone) as (noteData & Hn & Hsent).
    exists noteData. repeat split; try assumption.
    now apply appends_to_intro.
Qed.

(** [addMark] with text selected at 0.6: the one new mark is sent, and the
    server appends it to what [marks.json] holds. *)
Lemma handlers_persist_witness :
  let r := addMark Example.clock Example.selecting in
  exists markData,
    marks (state r) = marks Example.selecting ++ [markData] /\
    sent r = [SaveMark markData] /\
    appends_to Example.stringify Example.parse "marks.json" r (mark_to_json markData).
Proof.
  pose proof (handlers_persist Example.stringify Example.parse Example.selecting) as H.
  destruct H as (_ & _ & _ & _ & _ & _ & H & _).
  exact (H Example.clock eq_refl).
Defined.

(** * Further properties of the component *)

(** ** The parent does not depend on the stored order *)

Lemma nearest_preceding_max (r : Rendition) (p : Q) (l : list Mark.t)
    (i : nat) (m : Mark.t) (q : Q) (m' : Mark.t) (q' : Q) :
  nearest_preceding r p l i m q ->
  m' ∈ l -> percentageFromCfi r (Mark.cfiRange m') = Some q' -> (q' <= p)%Q ->
  (q' <= q)%Q.
Proof.
  intros (_ & _ & _ & Hbest) Hin Hq' Hle.
  apply list_elem_of_lookup in Hin as [j Hj].
  now destruct (Hbest j m' q' Hj Hq' Hle).
Qed.

(** Whatever the order in which the marks are stored (the panel sorts them
    in place at every render), [findParentMark] finds a parent for the same
    notes, and the parents it finds for two orders lie at the same
    position: the order only chooses among marks at one position. *)
Theorem findParentMark_permutation (rendition : option Rendition)
    (l l' : list Mark.t) (cfi : string) :
  l ≡ₚ l' ->
  match findParentMark rendition l cfi, findParentMark rendition l' cfi with
  | Some m, Some m' =>
      exists r q q',
        rendition = Some r /\
        percentageFromCfi r (Mark.cfiRange m) = Some q /\
        percentageFromCfi r (Mark.cfiRange m') = Some q' /\
        (q == q')%Q
  | None, None => True
  | _, _ => False
  end.
Proof.
  intros Hperm.
  pose proof (findParentMark_spec rendition l cfi) as Hl.
  pose proof (findParentMark_spec rendition l' cfi) as Hl'.
  destruct (findParentMark rendition l cfi) as [m |],
           (findParentMark rendition l' cfi) as [m' |].
  - destruct Hl as (r & p & i & q & Hr & Hp & Hbest).
    destruct Hl' as (r' & p' & i' & q' & Hr' & Hp' & Hbest').
    rewrite Hr in Hr'. injection Hr' as <-. rewrite Hp in Hp'. injection Hp' as <-.
    exists r, q, q'.
    pose proof Hbest as (Hi & Hq & Hle & _).
    pose proof Hbest' as (Hi' & Hq' & Hle' & _).
    repeat split; try assumption.
    apply Qle_antisym.
    + apply (nearest_preceding_max r p l' i' m' q' m q Hbest'); try assumption.
      rewrite <- Hperm. apply list_elem_of_lookup. now exists i.
    + apply (nearest_preceding_max r p l i m q m' q' Hbest); try assumption.
      rewrite Hperm. apply list_elem_of_lookup. now exists i'.
  - destruct Hl as (r & p & i & q & Hr & Hp & Hi & Hq & Hle & _).
    destruct Hl' as [Hnone | (r' & p' & Hr' & Hp' & Hnone)]; [congruence |].
    rewrite Hr in Hr'. injection Hr' as <-. rewrite Hp in Hp'. injection Hp' as <-.
    apply (Hnone m q); try assumption.
    rewrite <- Hperm. apply list_elem_of_lookup. now exists i.
  - destruct Hl' as (r & p & i & q & Hr & Hp & Hi & Hq & Hle & _).
    destruct Hl as [Hnone | (r' & p' & Hr' & Hp' & Hnone)]; [congruence |].
    rewrite Hr in Hr'. injection Hr' as <-. rewrite Hp in Hp'. injection Hp' as <-.
    apply (Hnone m' q); try assumption.
    rewrite Hperm. apply list_elem_of_lookup. now exists i.
  - exact I.
Qed.

(** M1 and M2 in both orders, for a note at 0.6. *)
Lemma findParentMark_permutation_witness :
  match findParentMark (Some Example.book) [Example.M1; Example.M2] "cfi@0.6",
        findParentMark (Some Example.book) [Example.M2; Example.M1] "cfi@0.6" with
  | Some m, Some m' =>
      exists r q q',
        Some Example.book = Some r /\
        percentageFromCfi r (Mark.cfiRange m) = Some q /\
        percentageFromCfi r (Mark.cfiRange m') = Some q' /\
        (q == q')%Q
  | None, None => True
  | _, _ => False
  end.
Proof.
  apply (findParentMark_permutation (Some Example.book)
           [Example.M1; Example.M2] [Example.M2; Example.M1] "cfi@0.6").
  apply perm_swap.
Defined.

(** ** Which handlers keep the notes free of dangling parents *)

(** Every handler but the deletion of a mark keeps the notes free of
    dangling parents. *)
Theorem handle_no_dangling (e : Event) (s : App) :
  (forall markId, e <> DeleteMarkWithReassignment markId) ->
  no_dangling s ->
  no_dangling (state (handle e s)).
Proof.
  intros Hkind Hinv. destruct e; simpl.
  - now apply addMark_no_dangling.
  - now apply saveMarkName_no_dangling.
  - now apply saveMarkText_no_dangling.
  - now apply saveNoteText_no_dangling.
  - now apply deleteNote_no_dangling.
  - now destruct (Hkind markId).
  - now apply createNote_no_dangling.
  - now apply createNote_no_dangling.
  - now apply undoLastHighlight_no_dangling.
Qed.

Lemma reading_no_dangling : no_dangling Example.selecting.
Proof.
  intros n i Hin Hid. exists Example.M2.
  apply list_elem_of_singleton in Hin. subst n. simpl in Hid.
  injection Hid as <-. split; [| reflexivity].
  apply list_elem_of_lookup. now exists 1%nat.
Defined.

(** A highlight at 0.6 in the session of M1, M2 and N. *)
Lemma handle_no_dangling_witness :
  no_dangling (state (handle (AddHighlight Example.clock) Example.selecting)).
Proof.
  apply (handle_no_dangling (AddHighlight Example.clock) Example.selecting).
  - intros markId. discriminate.
  - exact reading_no_dangling.
Defined.

(** ** What the deletion of a mark leaves alone *)

(** Deleting a mark removes the marks of that id and keeps the others; it
    keeps the number of notes, keeps each note that is not filed under that
    id as it is, at its place, and changes nothing but [markId] in the
    others. If no parent was dangling before, the only parent that can
    dangle afterwards is the deleted id. *)
Theorem deleteMark_frame (markId : string) (s : App) :
  let r := deleteMarkWithReassignment markId s in
  (forall m, m ∈ marks (state r) <-> m ∈ marks s /\ Mark.id m <> markId) /\
  marks (state r) `sublist_of` marks s /\
  length (notes (state r)) = length (notes s) /\
  (forall i n, notes s !! i = Some n ->
     exists n', notes (state r) !! i = Some n' /\
                n' = Note.with_markId (Note.markId n') n /\
                (Note.markId n <> Some markId -> n' = n)) /\
  (no_dangling s ->
   forall n i, n ∈ notes (state r) -> Note.markId n = Some i ->
     i = markId \/ exists m, m ∈ marks (state r) /\ Mark.id m = i).
Proof.
  intros r. subst r. cbn [deleteMarkWithReassignment state marks notes set_notes set_marks].
  split; [| split; [| split; [| split]]].
  - intros m. rewrite list_elem_of_filter. tauto.
  - apply sublist_filter.
  - now rewrite length_fmap.
  - intros i n Hi. rewrite list_lookup_fmap, Hi. simpl. eexists. split; [reflexivity |].
    destruct (decide (Note.markId n = Some markId)) as [Heq | Hne].
    + split; [reflexivity | intros Hne; contradiction].
    + split; [now destruct n | reflexivity].
  - intros Hinv n i Hin Hid.
    apply list_elem_of_fmap in Hin as (n0 & -> & Hin0).
    destruct (decide (Note.markId n0 = Some markId)) as [Heq | Hne].
    + simpl in Hid.
      destruct (findParentMark (rendition s) (marks s) (Note.cfiRange n0))
        as [m |] eqn:Hparent; [| discriminate].
      injection Hid as <-.
      destruct (decide (Mark.id m = markId)) as [-> | Hother]; [now left |].
      right. exists m. split; [| reflexivity].
      apply list_elem_of_filter. split; [exact Hother |].
      now apply findParentMark_elem in Hparent.
    + destruct (Hinv n0 i Hin0 Hid) as (m & Hm & Hmi).
      right. exists m. split; [| exact Hmi].
      apply list_elem_of_filter. split; [| exact Hm]. congruence.
Qed.

(** ** The notes panel lists every note once *)

Lemma orphaned_iff (s : App) (note : Note.t) :
  note ∈ orphanedNotes s <->
  note ∈ notes s /\
  (Note.markId note = None \/ Note.markId note = Some "" \/
   exists i, Note.markId note = Some i /\ forall m, m ∈ marks s -> Mark.id m <> i).
Proof.
  unfold orphanedNotes. cbv zeta. rewrite list_elem_of_filter.
  split; intros [H Hin]; (split; [| try exact H]); try exact Hin.
  - destruct (Note.markId note) as [i |]; [| now left]. right.
    simpl in H. destruct (decide (i = "")) as [-> | Hne]; [now left |].
    right. exists i. split; [reflexivity |]. intros m Hm Hid.
    simpl in H. apply negb_true_iff, bool_decide_eq_false in H. apply H.
    apply elem_of_list_to_set, list_elem_of_fmap. now exists m.
  - destruct Hin as [-> | [-> | (i & -> & Hnone)]]; [reflexivity | reflexivity |].
    simpl. destruct (decide (i = "")); [reflexivity |]. simpl.
    apply negb_true_iff, bool_decide_eq_false. intros Hi.
    apply elem_of_list_to_set, list_elem_of_fmap in Hi as (m & -> & Hm).
    now apply (Hnone m).
Qed.

(** Every note is listed under "Unassigned" or under a mark; a note with a
    dangling parent is listed under "Unassigned". When no mark has the empty
    id, no note is listed in both places. *)
Theorem every_note_listed (s : App) (n : Note.t) :
  n ∈ notes s ->
  (n ∈ orphanedNotes s \/ exists m, m ∈ marks s /\ n ∈ markNotes s m) /\
  ((forall i, Note.markId n = Some i -> forall m, m ∈ marks s -> Mark.id m <> i) ->
   n ∈ orphanedNotes s) /\
  ((forall m, m ∈ marks s -> Mark.id m <> "") ->
   n ∈ orphanedNotes s -> forall m, m ∈ marks s -> n ∉ markNotes s m).
Proof.
  intros Hin. split; [| split].
  - destruct (Note.markId n) as [i |] eqn:Hid.
    + destruct (decide (i ∈ Mark.id <$> marks s)) as [Hi | Hi].
      * right. apply list_elem_of_fmap in Hi as (m & -> & Hm).
        exists m. split; [exact Hm |]. unfold markNotes.
        apply list_elem_of_filter. now split.
      * left. apply orphaned_iff. split; [exact Hin |]. right. right.
        exists i. split; [exact Hid |]. intros m Hm Hmi. apply Hi.
        apply list_elem_of_fmap. now exists m.
    + left. apply orphaned_iff. split; [exact Hin |]. now left.
  - intros Hdangling. apply orphaned_iff. split; [exact Hin |].
    destruct (Note.markId n) as [i |] eqn:Hid; [| now left].
    right. right. exists i. split; [reflexivity |]. now apply Hdangling.
  - intros Hids Horphan m Hm Hlisted.
    apply orphaned_iff in Horphan as [_ Hwhy].
    apply list_elem_of_filter in Hlisted as [Hid _].
    destruct Hwhy as [Hnone | [Hempty | (i & Hi & Hnone)]].
    + congruence.
    + rewrite Hid in Hempty. injection Hempty as Hempty. now apply (Hids m).
    + rewrite Hid in Hi. injection Hi as <-. now apply (Hnone m).
Qed.

(** N, filed under M2, in the session of M1 and M2. *)
Lemma every_note_listed_witness :
  Example.N ∈ orphanedNotes Example.reading \/
  exists m, m ∈ marks Example.reading /\ Example.N ∈ markNotes Example.reading m.
Proof.
  apply (every_note_listed Example.reading Example.N).
  now apply list_elem_of_singleton.
Defined.

(** After the deletion of a mark, no remaining mark lists a note under the
    deleted id: the notes that still carry it are listed under
    "Unassigned". *)
Theorem deleted_mark_notes_unassigned (markId : string) (s : App) (n : Note.t) :
  n ∈ notes (state (deleteMarkWithReassignment markId s)) ->
  Note.markId n = Some markId ->
  n ∈ orphanedNotes (state (deleteMarkWithReassignment markId s)).
Proof.
  intros Hin Hid. apply orphaned_iff. split; [exact Hin |].
  right. right. exists markId. split; [exact Hid |].
  intros m Hm. now apply list_elem_of_filter in Hm as [Hne _].
Qed.

(** N after the deletion of M2. *)
Lemma deleted_mark_notes_unassigned_witness :
  Example.N ∈ orphanedNotes (state (deleteMarkWithReassignment "mark-2" Example.reading)).
Proof.
  apply (deleted_mark_notes_unassigned "mark-2" Example.reading Example.N).
  - assert (notes (state (deleteMarkWithReassignment "mark-2" Example.reading))
            = [Example.N]) as -> by (vm_compute; reflexivity).
    now apply list_elem_of_singleton.
  - reflexivity.
Defined.

Lemma listed_once (ms : list Mark.t) (i : string) :
  NoDup (Mark.id <$> ms) -> i ∈ Mark.id <$> ms ->
  sum_list ((fun m => if decide (Some i = Some (Mark.id m)) then 1 else 0) <$> ms) = 1.
Proof.
  induction ms as [| m ms IH]; intros Hnodup Hi; [now apply not_elem_of_nil in Hi |].
  rewrite fmap_cons in Hnodup. apply NoDup_cons in Hnodup as [Hfresh Hnodup].
  cbn [fmap list_fmap sum_list_with].
  destruct (decide (Some i = Some (Mark.id m))) as [Heq | Hne].
  - injection Heq as ->. cbn [id]. f_equal.
    clear IH Hi Hnodup. induction ms as [| m' ms IH]; [reflexivity |].
    cbn [fmap list_fmap sum_list_with].
    rewrite fmap_cons in Hfresh. apply not_elem_of_cons in Hfresh as [Hne Hfresh].
    destruct (decide (Some (Mark.id m) = Some (Mark.id m'))) as [Heq | _];
      [congruence |].
    now apply IH.
  - cbn [id plus]. apply IH; [exact Hnodup |].
    rewrite fmap_cons in Hi. apply elem_of_cons in Hi as [-> | Hi]; [congruence | exact Hi].
Qed.

Lemma listed_nowhere (ms : list Mark.t) (markId : option string) :
  (forall m, m ∈ ms -> markId <> Some (Mark.id m)) ->
  sum_list ((fun m => if decide (markId = Some (Mark.id m)) then 1 else 0) <$> ms) = 0.
Proof.
  induction ms as [| m ms IH]; intros Hnone; [reflexivity |].
  cbn [fmap list_fmap sum_list_with].
  destruct (decide (markId = Some (Mark.id m))) as [Heq | _].
  - exfalso. apply (Hnone m); [now left | exact Heq].
  - cbn [id plus]. apply IH. intros m' Hm'. apply Hnone. now right.
Qed.

Lemma sum_list_plus {A : Type} (f g : A -> nat) (l : list A) :
  sum_list ((fun x => f x + g x) <$> l) = sum_list (f <$> l) + sum_list (g <$> l).
Proof.
  induction l as [| x l IH]; [reflexivity |].
  cbn [fmap list_fmap sum_list_with id] in *. rewrite IH. lia.
Qed.

Lemma notes_counted (s : App) (ns : list Note.t) :
  NoDup (Mark.id <$> marks s) ->
  (forall m, m ∈ marks s -> Mark.id m <> "") ->
  length (orphanedNotes (set_notes ns s))
  + sum_list ((fun m => length (markNotes (set_notes ns s) m)) <$> marks s)
  = length ns.
Proof.
  intros Hnodup Hids. induction ns as [| n ns IH]; unfold orphanedNotes, markNotes in *;
    cbn [set_notes notes marks] in *.
  - cbn [filter list_filter length]. apply (listed_nowhere (marks s) None). discriminate.
  - rewrite filter_cons.
    assert (sum_list ((fun m => length (filter (fun note => Note.markId note = Some (Mark.id m))
                                               (n :: ns))) <$> marks s)
            = sum_list ((fun m => if decide (Note.markId n = Some (Mark.id m))
                                  then 1 else 0) <$> marks s)
              + sum_list ((fun m => length (filter (fun note => Note.markId note
                                                                = Some (Mark.id m)) ns))
                          <$> marks s)) as ->.
    { rewrite <- sum_list_plus. f_equal. apply list_fmap_ext. intros _ m _.
      rewrite filter_cons. now destruct (decide (Note.markId n = Some (Mark.id m))). }
    destruct (decide _) as [Horphan | Hlisted].
    + rewrite listed_nowhere; [cbn [length]; rewrite <- IH; cbn [plus]; reflexivity |].
      intros m Hm Hid. rewrite Hid in Horphan. simpl in Horphan.
      destruct (decide (Mark.id m = "")) as [Hempty | _]; [now apply (Hids m) |].
      simpl in Horphan. apply negb_true_iff, bool_decide_eq_false in Horphan.
      apply Horphan, elem_of_list_to_set, list_elem_of_fmap. now exists m.
    + destruct (Note.markId n) as [i |]; [| now destruct Hlisted].
      simpl in Hlisted. destruct (decide (i = "")); [now destruct Hlisted |].
      simpl in Hlisted. apply not_true_is_false, negb_false_iff, bool_decide_eq_true in Hlisted.
      apply elem_of_list_to_set in Hlisted.
      rewrite (listed_once (marks s) i Hnodup Hlisted). cbn [length].
      rewrite <- IH. cbn [plus]. rewrite Nat.add_succ_r. reflexivity.
Qed.

(** When the ids of the marks are distinct and none is empty, the numbers
    of notes shown in the panel add up to the number of notes: every note is
    counted once, under "Unassigned" or in the count of one mark. *)
Theorem notes_counted_once (s : App) :
  NoDup (Mark.id <$> marks s) ->
  (forall m, m ∈ marks s -> Mark.id m <> "") ->
  length (orphanedNotes s) + sum_list ((fun m => length (markNotes s m)) <$> marks s)
  = length (notes s).
Proof.
  intros Hnodup Hids.
  pose proof (notes_counted s (notes s) Hnodup Hids) as H.
  replace (set_notes (notes s) s) with s in H by now destruct s.
  exact H.
Qed.

(** M1 and M2 with N and N2, both filed under M2. *)
Lemma notes_counted_once_witness :
  length (orphanedNotes Example.annotated)
  + sum_list ((fun m => length (markNotes Example.annotated m)) <$> marks Example.annotated)
  = length (notes Example.annotated).
Proof.
  apply (notes_counted_once Example.annotated).
  - simpl. apply NoDup_cons. split.
    + intros Hin. apply list_elem_of_singleton in Hin. discriminate.
    + apply NoDup_singleton.
  - intros m Hm. simpl in Hm.
    apply elem_of_cons in Hm as [-> | Hm]; [discriminate |].
    apply list_elem_of_singleton in Hm. subst m. discriminate.
Defined.

(** ** Handlers run one after the other *)

(** Deleting a note id a second time finds nothing: ['Note not found'],
    nothing sent, the state left as the first call left it. *)
Theorem deleteNote_twice (noteId : string) (s : App) :
  deleteNote noteId (state (deleteNote noteId s))
  = mkResult (state (deleteNote noteId s)) [] NotFound.
Proof.
  apply deleteNote_absent. unfold deleteNote.
  destruct (list_find _ (notes s)) as [found |] eqn:Hfind; cbn [state notes set_notes].
  - intros n Hin. now apply list_elem_of_filter in Hin as [Hne _].
  - apply list_find_None in Hfind. rewrite Forall_forall in Hfind. exact Hfind.
Qed.

Lemma undo_snoc (s : App) (earlier : list Note.t) (last : Note.t) :
  notes s = earlier ++ [last] ->
  undoLastHighlight s = mkResult (set_notes earlier s) [UpdateNotes earlier] Done.
Proof.
  intros Hnotes. unfold undoLastHighlight. rewrite Hnotes.
  assert (take (length (earlier ++ [last]) - 1) (earlier ++ [last]) = earlier) as ->.
  { apply take_app_length'. rewrite length_app. simpl. lia. }
  now destruct earlier.
Qed.

Lemma undo_after_createNote (alertText noteType : string) (c : Clock) (s : App) :
  outcome (createNote alertText noteType c s) = Done ->
  let u := undoLastHighlight (state (createNote alertText noteType c s)) in
  notes (state u) = notes s /\ marks (state u) = marks s /\
  sent u = [UpdateNotes (notes s)] /\ outcome u = Done.
Proof.
  intros Hdone.
  destruct (createNote_Done _ _ c s Hdone) as (noteData & Hnotes & _).
  assert (marks (state (createNote alertText noteType c s)) = marks s) as Hmarks.
  { unfold createNote. destruct (currentSelection s); [| reflexivity].
    destruct (rendition s); [| reflexivity].
    now destruct (findParentMark _ _ _). }
  cbv zeta. rewrite (undo_snoc _ _ _ Hnotes). now repeat split.
Qed.

(** Undo right after a highlight or an underline has been created gives
    back the notes as they were before it, leaves the marks as they were,
    and sends the notes as they were before it. *)
Theorem undo_after_create (c : Clock) (formatType : string) (s : App) :
  (outcome (addHighlight c s) = Done ->
   let u := undoLastHighlight (state (addHighlight c s)) in
   notes (state u) = notes s /\ marks (state u) = marks s /\
   sent u = [UpdateNotes (notes s)] /\ outcome u = Done) /\
  (outcome (applyFormatting formatType c s) = Done ->
   let u := undoLastHighlight (state (applyFormatting formatType c s)) in
   notes (state u) = notes s /\ marks (state u) = marks s /\
   sent u = [UpdateNotes (notes s)] /\ outcome u = Done).
Proof.
  split; apply undo_after_createNote.
Qed.

(** A highlight at 0.6, undone. *)
Lemma undo_after_create_witness :
  notes (state (undoLastHighlight (state (addHighlight Example.clock Example.selecting))))
  = notes Example.selecting.
Proof.
  apply (proj1 (undo_after_create Example.clock "underline" Example.selecting) eq_refl).
Defined.

(** Editing under an id that no mark (no note) carries changes nothing in
    the state, and the whole collection is sent all the same: unlike
    [deleteNote], the editing handlers do not look the id up. *)
Theorem edit_absent_id (id text : string) (s : App) :
  ((forall m, m ∈ marks s -> Mark.id m <> id) ->
   saveMarkName id text s = mkResult s [UpdateMarks (marks s)] Done /\
   saveMarkText id text s = mkResult s [UpdateMarks (marks s)] Done) /\
  ((forall n, n ∈ notes s -> Note.id n <> id) ->
   saveNoteText id text s = mkResult s [UpdateNotes (notes s)] Done).
Proof.
  assert (forall (A : Type) (f : A -> A) (l : list A),
            (forall x, x ∈ l -> f x = x) -> f <$> l = l) as Hsame.
  { intros A f l Hf. rewrite <- (list_fmap_id l) at 2.
    apply list_fmap_ext. intros i x Hi. apply Hf, list_elem_of_lookup. now exists i. }
  split.
  - intros Habsent. unfold saveMarkName, saveMarkText. cbv zeta.
    rewrite !Hsame.
    + split; now destruct s.
    + intros m Hm. destruct (decide (Mark.id m = id)); [now destruct (Habsent m) | easy].
    + intros m Hm. destruct (decide (Mark.id m = id)); [now destruct (Habsent m) | easy].
  - intros Habsent. unfold saveNoteText. cbv zeta. rewrite !Hsame.
    + now destruct s.
    + intros n Hn. destruct (decide (Note.id n = id)); [now destruct (Habsent n) | easy].
Qed.

(** Renaming a mark that is not there, in the session of M1 and M2. *)
Lemma edit_absent_id_witness :
  saveMarkName "mark-9" "Finale" Example.reading
  = mkResult Example.reading [UpdateMarks (marks Example.reading)] Done.
Proof.
  apply (proj1 (edit_absent_id "mark-9" "Finale" Example.reading)).
  intros m Hm. simpl in Hm.
  apply elem_of_cons in Hm as [-> | Hm]; [discriminate |].
  apply list_elem_of_singleton in Hm. subst m. discriminate.
Defined.

(** Of two edits of one field under one id the later one stands, as if the
    earlier had not been made; the name and the text of a mark are edited
    independently of each other. *)
Theorem edits_compose (id a b : string) (s : App) :
  saveMarkName id b (state (saveMarkName id a s)) = saveMarkName id b s /\
  saveMarkText id b (state (saveMarkText id a s)) = saveMarkText id b s /\
  saveNoteText id b (state (saveNoteText id a s)) = saveNoteText id b s /\
  state (saveMarkText id b (state (saveMarkName id a s)))
  = state (saveMarkName id a (state (saveMarkText id b s))).
Proof.
  unfold saveMarkName, saveMarkText, saveNoteText. cbv zeta.
  cbn [state marks notes set_marks set_notes rendition currentColor currentSelection
       expandedMarks].
  rewrite <- !list_fmap_compose.
  assert (forall (A : Type) (f g : A -> A) (l : list A),
            (forall x, f x = g x) -> f <$> l = g <$> l) as Hext.
  { intros A f g l Hfg. apply list_fmap_ext. intros _ x _. apply Hfg. }
  repeat split.
  - rewrite (Hext _ _ (fun mark => if decide (Mark.id mark = id)
                                   then Mark.with_name b mark else mark)); [reflexivity |].
    intros m. simpl. destruct (decide (Mark.id m = id)) as [Hid | Hid]; simpl.
    + now rewrite decide_True.
    + now rewrite decide_False.
  - rewrite (Hext _ _ (fun mark => if decide (Mark.id mark = id)
                                   then Mark.with_markText b mark else mark)); [reflexivity |].
    intros m. simpl. destruct (decide (Mark.id m = id)) as [Hid | Hid]; simpl.
    + now rewrite decide_True.
    + now rewrite decide_False.
  - rewrite (Hext _ _ (fun note => if decide (Note.id note = id)
                                   then Note.with_noteText b note else note)); [reflexivity |].
    intros n. simpl. destruct (decide (Note.id n = id)) as [Hid | Hid]; simpl.
    + now rewrite decide_True.
    + now rewrite decide_False.
  - unfold set_marks.
    cbn [marks notes rendition currentColor currentSelection expandedMarks].
    f_equal. apply Hext. intros m. simpl.
    destruct (decide (Mark.id m = id)) as [Hid | Hid]; simpl.
    + now rewrite !decide_True.
    + now rewrite !decide_False.
Qed.

(** ** Ids *)

Lemma decimal_inj (a b : Z) : decimal a = decimal b -> a = b.
Proof.
  assert (forall z, NilZero.int_of_string (decimal z) = Some (Z.to_int z)) as Hback.
  { intros z. unfold decimal. apply NilZero.isi; destruct z; simpl; try discriminate;
      intros [= E]; now apply Unsigned.to_uint_nonnil in E. }
  intros Heq. apply DecimalZ.to_int_inj.
  pose proof (Hback a) as Ha. rewrite Heq, Hback in Ha. congruence.
Qed.

(** Two marks made by [addMark] carry the same id exactly when the clock
    read the same millisecond for both: the id is the reading and nothing
    else, so marks made within one millisecond collide. *)
Theorem addMark_ids (c1 c2 : Clock) (s1 s2 : App) (m1 m2 : Mark.t) :
  sent (addMark c1 s1) = [SaveMark m1] ->
  sent (addMark c2 s2) = [SaveMark m2] ->
  (Mark.id m1 = Mark.id m2 <-> id_now c1 = id_now c2).
Proof.
  unfold addMark.
  destruct (currentSelection s1), (rendition s1); try discriminate.
  destruct (currentSelection s2), (rendition s2); try discriminate.
  cbn [sent]. intros [= <-] [= <-]. cbn [Mark.id]. split.
  - intros Hid. apply decimal_inj.
    cbn [String.append] in Hid. now injection Hid.
  - now intros ->.
Qed.

(** Two marks made from the same selection at the same reading of the
    clock. *)
Lemma addMark_ids_witness :
  Mark.id (Mark.mk "mark-7" "cfi@0.6" "and the rain fell" "Episode 3" "" 7
                   "2024-05-01T10:00:00.007Z")
  = Mark.id (Mark.mk "mark-7" "cfi@0.6" "and the rain fell" "Episode 3" "" 7
                     "2024-05-01T10:00:00.007Z")
  <-> id_now Example.clock = id_now Example.clock.
Proof.
  apply (addMark_ids Example.clock Example.clock Example.selecting Example.selecting);
    vm_compute; reflexivity.
Defined.

(** * Further properties of the server, and of the two together *)

Section Agreement.
Context {text : Type}.
Variable JSON_stringify : json -> text.
Variable JSON_parse : text -> option json.
Hypothesis JSON_round_trip : forall v, JSON_parse (JSON_stringify v) = Some v.

Lemma read_insert_eq (filename : string) (v : json) (data : gmap string text) :
  read_or_empty JSON_parse filename (<[filename := JSON_stringify v]> data) = v.
Proof.
  unfold read_or_empty. now rewrite lookup_insert_eq, JSON_round_trip.
Qed.

Lemma read_insert_ne (filename other : string) (content : text)
    (data : gmap string text) :
  other <> filename ->
  read_or_empty JSON_parse filename (<[other := content]> data)
  = read_or_empty JSON_parse filename data.
Proof.
  intros Hne. unfold read_or_empty. now rewrite lookup_insert_ne.
Qed.

Lemma synced_ext (data : gmap string text) (s s' : App) :
  marks s = marks s' -> notes s = notes s' ->
  synced JSON_parse data s -> synced JSON_parse data s'.
Proof.
  unfold synced. now intros <- <-.
Qed.

Lemma synced_UpdateMarks (ms : list Mark.t) (data : gmap string text) (s : App) :
  synced JSON_parse data s ->
  synced JSON_parse (fst (serve JSON_stringify JSON_parse (UpdateMarks ms) data))
         (set_marks ms s).
Proof.
  intros [_ Hnotes]. rewrite serve_UpdateMarks. cbn [fst]. split.
  - exists ms. split; [| reflexivity].
    unfold load_marks, load_collection. now rewrite read_insert_eq.
  - unfold load_notes, load_collection in *. now rewrite read_insert_ne.
Qed.

Lemma synced_UpdateNotes (ns : list Note.t) (data : gmap string text) (s : App) :
  synced JSON_parse data s ->
  synced JSON_parse (fst (serve JSON_stringify JSON_parse (UpdateNotes ns) data))
         (set_notes ns s).
Proof.
  intros [(stored & Hmarks & Hperm) _]. rewrite serve_UpdateNotes. cbn [fst]. split.
  - exists stored. split; [| exact Hperm].
    unfold load_marks, load_collection in *. now rewrite read_insert_ne.
  - unfold load_notes, load_collection. now rewrite read_insert_eq.
Qed.

Lemma synced_SaveMark (m : Mark.t) (data : gmap string text) (s : App) :
  synced JSON_parse data s ->
  synced JSON_parse (fst (serve JSON_stringify JSON_parse (SaveMark m) data))
         (set_marks (marks s ++ [m]) s).
Proof.
  intros [(stored & Hmarks & Hperm) Hnotes].
  unfold load_marks, load_notes, load_collection in *. injection Hmarks as Hmarks.
  rewrite (serve_SaveMark _ _ _ _ _ Hmarks). cbn [fst]. split.
  - exists (stored ++ [m]). split.
    + unfold load_marks, load_collection. now rewrite read_insert_eq, fmap_snoc.
    + cbn [marks set_marks]. now rewrite Hperm.
  - unfold load_notes, load_collection. now rewrite read_insert_ne.
Qed.

Lemma synced_SaveNote (n : Note.t) (data : gmap string text) (s : App) :
  synced JSON_parse data s ->
  synced JSON_parse (fst (serve JSON_stringify JSON_parse (SaveNote n) data))
         (set_notes (notes s ++ [n]) s).
Proof.
  intros [(stored & Hmarks & Hperm) Hnotes].
  unfold load_marks, load_notes, load_collection in *. injection Hnotes as Hnotes.
  rewrite (serve_SaveNote _ _ _ _ _ Hnotes). cbn [fst]. split.
  - exists stored. split; [| exact Hperm].
    unfold load_marks, load_collection. now rewrite read_insert_ne.
  - unfold load_notes, load_collection. cbn [notes set_notes].
    now rewrite read_insert_eq, fmap_snoc.
Qed.

Lemma createNote_synced (alertText noteType : string) (c : Clock)
    (data : gmap string text) (s : App) :
  synced JSON_parse data s ->
  synced JSON_parse
    (serve_all JSON_stringify JSON_parse (sent (createNote alertText noteType c s)) data)
    (state (createNote alertText noteType c s)).
Proof.
  intros Hsync. unfold createNote.
  destruct (currentSelection s) as [sel |]; [| exact Hsync].
  destruct (rendition s) as [r |]; [| exact Hsync].
  destruct (findParentMark _ _ _) as [parentMark |]; [| exact Hsync].
  cbn [sent state serve_all fold_left].
  eapply synced_ext; [| | apply synced_SaveNote, Hsync]; reflexivity.
Qed.
End Agreement.

(** When the server would hand out what the memory holds (the notes as they
    are, the marks up to their order) and the runtime reads back what it
    writes, this is still so once the server has handled the requests of
    any handler, the deletion of a mark included; and sorting the marks in
    place for the panel keeps it so. *)
Theorem handle_synced {text : Type}
    (JSON_stringify : json -> text) (JSON_parse : text -> option json)
    (e : Event) (data : gmap string text) (s : App) :
  (forall v, JSON_parse (JSON_stringify v) = Some v) ->
  synced JSON_parse data s ->
  synced JSON_parse
    (serve_all JSON_stringify JSON_parse (sent (handle e s)) data)
    (state (handle e s)) /\
  synced JSON_parse data (render s).
Proof.
  intros Hround Hsync. split.
  - destruct e; cbn [handle].
    + unfold addMark.
      destruct (currentSelection s) as [sel |]; [| exact Hsync].
      destruct (rendition s) as [r |]; [| exact Hsync].
      cbn [sent state serve_all fold_left].
      eapply synced_ext;
        [| | exact (synced_SaveMark _ _ Hround _ data s Hsync)]; reflexivity.
    + now apply synced_UpdateMarks.
    + now apply synced_UpdateMarks.
    + now apply synced_UpdateNotes.
    + unfold deleteNote. destruct (list_find _ (notes s)); [| exact Hsync].
      now apply synced_UpdateNotes.
    + cbn [deleteMarkWithReassignment sent state serve_all fold_left].
      apply synced_UpdateNotes; [exact Hround |].
      now apply synced_UpdateMarks.
    + now apply createNote_synced.
    + now apply createNote_synced.
    + unfold undoLastHighlight. destruct (notes s); [exact Hsync |].
      now apply synced_UpdateNotes.
  - destruct Hsync as [(stored & Hmarks & Hperm) Hnotes]. split; [| exact Hnotes].
    exists stored. split; [exact Hmarks |].
    cbn [render marks set_marks]. rewrite Hperm. apply Array_sort_perm.
Qed.

Lemma session_synced : synced Example.parse session_files Example.selecting.
Proof.
  split.
  - exists [Example.M1; Example.M2]. split; [| reflexivity].
    unfold load_marks, load_collection, read_or_empty, session_files.
    now rewrite lookup_insert_eq.
  - unfold load_notes, load_collection, read_or_empty, session_files.
    now rewrite lookup_insert_ne, lookup_insert_eq.
Defined.

(** A mark added at 0.6 in the session of M1, M2 and N. *)
Lemma handle_synced_witness :
  synced Example.parse
    (serve_all Example.stringify Example.parse
       (sent (handle (AddMark Example.clock) Example.selecting)) session_files)
    (state (handle (AddMark Example.clock) Example.selecting)).
Proof.
  apply (handle_synced Example.stringify Example.parse (AddMark Example.clock)
           session_files Example.selecting).
  - reflexivity.
  - exact session_synced.
Defined.

(** ** Edges of the endpoints *)

(** A collection file that is not there, or does not parse, is started
    afresh by the next save of a record: the file then holds that record
    alone, whatever text it held. *)
Theorem save_record_starts_afresh {text : Type}
    (JSON_stringify : json -> text) (JSON_parse : text -> option json)
    (filename message : string) (record : json) (data : gmap string text) :
  data !! filename = None \/
  (exists content, data !! filename = Some content /\ JSON_parse content = None) ->
  fst (save_record JSON_stringify JSON_parse filename message record data) !! filename
  = Some (JSON_stringify (JArray [record])).
Proof.
  intros Hfile. unfold save_record.
  assert (read_or_empty JSON_parse filename data = JArray []) as ->.
  { unfold read_or_empty. destruct Hfile as [-> | (content & -> & ->)]; reflexivity. }
  cbn [app]. destruct (prop "text" record) as [[] |]; apply lookup_insert_eq.
Qed.

(** The first mark saved into an empty data directory. *)
Lemma save_record_starts_afresh_witness :
  fst (save_mark Example.stringify Example.parse (mark_to_json Example.M1) ∅)
    !! "marks.json"
  = Some (JArray [mark_to_json Example.M1]).
Proof.
  apply (save_record_starts_afresh Example.stringify Example.parse
           "marks.json" "Mark saved successfully" (mark_to_json Example.M1) ∅).
  left. apply lookup_empty.
Defined.

(** A record without a string [text] is stored all the same, after the
    records the file held, and the answer is a 500: the handler throws in
    its log line, after the write. *)
Theorem save_record_without_text {text : Type}
    (JSON_stringify : json -> text) (JSON_parse : text -> option json)
    (filename message : string) (record : json) (existing : list json)
    (data : gmap string text) :
  (forall t, prop "text" record <> Some (JString t)) ->
  read_or_empty JSON_parse filename data = JArray existing ->
  save_record JSON_stringify JSON_parse filename message record data
  = (<[filename := JSON_stringify (JArray (existing ++ [record]))]> data, Status500).
Proof.
  intros Htext Hread. unfold save_record. rewrite Hread.
  destruct (prop "text" record) as [[] |]; try reflexivity.
  now destruct (Htext s).
Qed.

(** An empty object posted to [/api/save-note], the data directory being
    empty. *)
Lemma save_record_without_text_witness :
  save_note Example.stringify Example.parse (JObject []) ∅
  = (<["notes.json" := JArray [JObject []]]> ∅, Status500).
Proof.
  apply (save_record_without_text Example.stringify Example.parse
           "notes.json" "Note saved successfully" (JObject []) [] ∅).
  - intros t. discriminate.
  - unfold read_or_empty. now rewrite lookup_empty.
Defined.

(** [null] posted as the collection is written to the file although the
    answer is a 500; from then on the load hands out [null] and every save
    of a record fails and leaves the files as they are. *)
Theorem update_with_null_blocks_saves {text : Type}
    (JSON_stringify : json -> text) (JSON_parse : text -> option json)
    (filename field message : string) (data : gmap string text) :
  JSON_parse (JSON_stringify JNull) = Some JNull ->
  let after :=
    update_collection JSON_stringify filename field message
                      (JObject [(field, JNull)]) data in
  snd after = Status500 /\
  fst after !! filename = Some (JSON_stringify JNull) /\
  load_collection JSON_parse filename (fst after) = SuccessData JNull /\
  forall message' record,
    save_record JSON_stringify JSON_parse filename message' record (fst after)
    = (fst after, Status500).
Proof.
  intros Hnull after. subst after. unfold update_collection.
  rewrite prop_singleton. cbn [fst snd].
  assert (read_or_empty JSON_parse filename (<[filename := JSON_stringify JNull]> data)
          = JNull) as Hread.
  { unfold read_or_empty. now rewrite lookup_insert_eq, Hnull. }
  split; [reflexivity |]. split; [apply lookup_insert_eq |].
  split; [unfold load_collection; now rewrite Hread |].
  intros message' record. unfold save_record. now rewrite Hread.
Qed.

(** [{ marks: null }] posted to [/api/update-marks], then a mark saved. *)
Lemma update_with_null_blocks_saves_witness :
  let after := update_marks Example.stringify (JObject [("marks", JNull)]) ∅ in
  snd after = Status500 /\
  fst after !! "marks.json" = Some JNull /\
  load_marks Example.parse (fst after) = SuccessData JNull /\
  forall message' record,
    save_record Example.stringify Example.parse "marks.json" message' record (fst after)
    = (fst after, Status500).
Proof.
  exact (update_with_null_blocks_saves Example.stringify Example.parse
           "marks.json" "marks" "Marks updated successfully" ∅ eq_refl).
Defined.

(** Each endpoint writes to its own file and to no other. *)
Theorem endpoints_write_their_file {text : Type}
    (JSON_stringify : json -> text) (JSON_parse : text -> option json)
    (reqBody : json) (now : Z) (iso : string) (data : gmap string text)
    (other : string) :
  (other <> "marks.json" ->
   fst (save_mark JSON_stringify JSON_parse reqBody data) !! other = data !! other /\
   fst (update_marks JSON_stringify reqBody data) !! other = data !! other) /\
  (other <> "notes.json" ->
   fst (save_note JSON_stringify JSON_parse reqBody data) !! other = data !! other /\
   fst (update_notes JSON_stringify reqBody data) !! other = data !! other) /\
  (other <> "reading-progress.json" ->
   fst (save_progress JSON_stringify now iso reqBody data) !! other = data !! other).
Proof.
  assert (forall filename message,
            other <> filename ->
            fst (save_record JSON_stringify JSON_parse filename message reqBody data)
              !! other = data !! other) as Hsave.
  { intros filename message Hne. unfold save_record.
    destruct (read_or_empty JSON_parse filename data); try reflexivity.
    destruct (prop "text" reqBody) as [[] |]; cbn [fst]; now rewrite lookup_insert_ne. }
  assert (forall filename field message,
            other <> filename ->
            fst (update_collection JSON_stringify filename field message reqBody data)
              !! other = data !! other) as Hupdate.
  { intros filename field message Hne. unfold update_collection.
    destruct (prop field reqBody) as [[] |]; cbn [fst]; try reflexivity;
      now rewrite lookup_insert_ne. }
  split; [| split].
  - intros Hne. split; [now apply Hsave | now apply Hupdate].
  - intros Hne. split; [now apply Hsave | now apply Hupdate].
  - intros Hne. unfold save_progress.
    destruct reqBody; cbn [fst]; try reflexivity; now rewrite lookup_insert_ne.
Qed.

(** After [saveProgress(newLocation)], whose body carries the location and
    no timestamp, [GET /api/load-progress] hands out that location, stamped
    with the clock of the server; before any progress was saved it hands
    out [null]. *)
Theorem progress_round_trip {text : Type}
    (JSON_stringify : json -> text) (JSON_parse : text -> option json)
    (now : Z) (iso newLocation : string) (data : gmap string text) :
  let progressData :=
    JObject [("location", JString newLocation); ("timestamp", JNumber now);
             ("savedAt", JString iso)] in
  JSON_parse (JSON_stringify progressData) = Some progressData ->
  save_progress JSON_stringify now iso (progress_body newLocation) data
  = (<["reading-progress.json" := JSON_stringify progressData]> data,
     Success "Progress saved successfully") /\
  load_progress JSON_parse
    (fst (save_progress JSON_stringify now iso (progress_body newLocation) data))
  = SuccessData progressData /\
  load_progress JSON_parse (∅ : gmap string text) = SuccessData JNull.
Proof.
  intros progressData Hround.
  assert (save_progress JSON_stringify now iso (progress_body newLocation) data
          = (<["reading-progress.json" := JSON_stringify progressData]> data,
             Success "Progress saved successfully")) as Hsave by reflexivity.
  split; [exact Hsave |]. rewrite Hsave. cbn [fst]. split.
  - unfold load_progress. now rewrite lookup_insert_eq, Hround.
  - unfold load_progress. now rewrite lookup_empty.
Qed.

(** The location of the selection at 0.6, saved at time 7. *)
Lemma progress_round_trip_witness :
  load_progress Example.parse
    (fst (save_progress Example.stringify 7 "2024-05-01T10:00:00.007Z"
            (progress_body "cfi@0.6") ∅))
  = SuccessData (JObject [("location", JString "cfi@0.6"); ("timestamp", JNumber 7);
                          ("savedAt", JString "2024-05-01T10:00:00.007Z")]).
Proof.
  exact (proj1 (proj2 (progress_round_trip Example.stringify Example.parse 7
                         "2024-05-01T10:00:00.007Z" "cfi@0.6" ∅ eq_refl))).
Defined.

(** * Further properties of the views and of the controls *)

(** ** Sorting again changes nothing *)

Section SortedAlready.
Context {A : Type}.
Variable key : A -> Q.
Variable compare : A -> A -> Q.
Hypothesis compare_key : forall a b, (compare a b <= 0)%Q <-> (key a <= key b)%Q.

Lemma Array_sort_sorted_id (l : list A) :
  StronglySorted (fun a b => (key a <= key b)%Q) l -> Array_sort compare l = l.
Proof.
  induction l as [| x l IH]; intros Hsorted; [reflexivity |].
  inversion Hsorted as [| ? ? Hl Hall]; subst.
  cbn [Array_sort foldr]. fold (Array_sort compare l). rewrite (IH Hl).
  destruct l as [| y l']; [reflexivity |]. cbn [sort_insert].
  inversion Hall as [| ? ? Hxy _]; subst.
  apply compare_key, Qle_bool_iff in Hxy. now rewrite Hxy.
Qed.

Lemma Array_sort_twice (l : list A) :
  Array_sort compare (Array_sort compare l) = Array_sort compare l.
Proof.
  apply Array_sort_sorted_id. now apply Array_sort_sorted.
Qed.
End SortedAlready.

Lemma compareMarks_key (rendition : option Rendition) :
  exists key : Mark.t -> Q,
    forall a b, (compareMarks rendition a b <= 0)%Q <-> (key a <= key b)%Q.
Proof.
  destruct rendition as [r |].
  - destruct (Z_lt_le_dec 0 (total r)) as [Hready | Hnot].
    + exists (fun m => percentage_or_0 r (Mark.cfiRange m)).
      intros a b. now apply compareMarks_ready.
    + exists (fun m => inject_Z (Mark.timestamp m)).
      intros a b. apply compareMarks_not_ready. right. now exists r.
  - exists (fun m => inject_Z (Mark.timestamp m)).
    intros a b. apply compareMarks_not_ready. now left.
Qed.

(** Rendering the panel sorts the marks of the state in place. Afterwards
    the marks of the state are the marks it held, sorted: once the
    locations are ready in ascending order of position, a mark without a
    position counting as one at position 0, until then in ascending order of
    [timestamp], marks of equal key in the order they had. The notes are
    untouched, no parent starts to dangle, and a second render finds the
    marks sorted and leaves the state as it is. *)
Theorem render_twice (s : App) :
  (forall r, rendition s = Some r /\ (0 < total r)%Z ->
     stable_sorted_by (fun m => percentage_or_0 r (Mark.cfiRange m))
                      (marks s) (marks (render s))) /\
  (rendition s = None \/ (exists r, rendition s = Some r /\ (total r <= 0)%Z) ->
     stable_sorted_by (fun m => inject_Z (Mark.timestamp m))
                      (marks s) (marks (render s))) /\
  render (render s) = render s /\
  marks (render s) ≡ₚ marks s /\
  notes (render s) = notes s /\
  rendition (render s) = rendition s /\
  (no_dangling s -> no_dangling (render s)).
Proof.
  destruct (compareMarks_key (rendition s)) as [key Hkey].
  split; [| split; [| split; [| split; [| split; [| split]]]]].
  - intros r [Hr Hready]. cbn [render marks set_marks]. unfold sortedMarks.
    rewrite Hr. apply Array_sort_stable_sorted.
    intros a b. now apply compareMarks_ready.
  - intros Hnot. cbn [render marks set_marks]. unfold sortedMarks.
    apply Array_sort_stable_sorted.
    intros a b. now apply compareMarks_not_ready.
  - unfold render, sortedMarks. cbn [marks rendition set_marks].
    rewrite (Array_sort_twice key _ Hkey). reflexivity.
  - symmetry. apply Array_sort_perm.
  - reflexivity.
  - reflexivity.
  - intros Hinv n i Hin Hid. destruct (Hinv n i Hin Hid) as (m & Hm & Hmi).
    exists m. split; [| exact Hmi]. cbn [render marks set_marks].
    unfold sortedMarks. now rewrite <- Array_sort_perm.
Qed.

(** M2 and the unplaced mark rendered with the locations ready: the
    unplaced mark, counted at 0, comes first. *)
Lemma render_twice_witness :
  stable_sorted_by (fun m => percentage_or_0 Example.book (Mark.cfiRange m))
                   (marks Example.with_lost) (marks (render Example.with_lost)) /\
  marks (render Example.with_lost) = [Example.lost; Example.M2].
Proof.
  split.
  - apply (proj1 (render_twice Example.with_lost) Example.book).
    split; reflexivity.
  - vm_compute. reflexivity.
Defined.



(** ** The colour button *)

Lemma cycleColor_outside (s : App) :
  currentColor s ∉ colors -> currentColor (cycleColor s) = akira.foreground.
Proof.
  intros Hout. unfold cycleColor.
  assert (indexOf colors (currentColor s) = (-1)%Z) as ->; [| reflexivity].
  unfold indexOf, colors. cbn [indexOf_from].
  repeat (destruct (decide (_ = currentColor s)) as [Heq | _];
          [exfalso; apply Hout; rewrite <- Heq; apply list_elem_of_In; cbn; tauto |]).
  reflexivity.
Qed.

Lemma cycleColor_inside (s : App) (i : nat) :
  colors !! i = Some (currentColor s) ->
  cycleColor s = set_currentColor (nth ((i + 1) mod 6) colors "") s.
Proof.
  destruct s as [r color sel ms ns ex]. cbn [currentColor].
  destruct i as [| [| [| [| [| [| i]]]]]]; cbn [colors lookup list_lookup];
    intros [= <-]; reflexivity.
Qed.

(** [cycleColor] always leaves a colour of the palette: from a colour of
    the palette the next one, from the last one the first, and from any
    other colour the first ([indexOf] gives [-1]). Six presses bring a
    colour of the palette back. *)
Theorem cycleColor_steps (s : App) :
  currentColor (cycleColor s) ∈ colors /\
  (forall i, colors !! i = Some (currentColor s) ->
             colors !! ((i + 1) mod 6) = Some (currentColor (cycleColor s))) /\
  (currentColor s ∉ colors -> currentColor (cycleColor s) = akira.foreground) /\
  (currentColor s ∈ colors -> Nat.iter 6 cycleColor s = s).
Proof.
  assert (forall i, colors !! i = Some (currentColor s) ->
                    colors !! ((i + 1) mod 6) = Some (currentColor (cycleColor s)))
    as Hstep.
  { intros i Hi. rewrite (cycleColor_inside s i Hi). cbn [currentColor set_currentColor].
    apply lookup_lt_Some in Hi. cbn [colors length] in Hi.
    destruct i as [| [| [| [| [| [| i]]]]]]; try lia; reflexivity. }
  split; [| split; [exact Hstep | split; [apply cycleColor_outside |]]].
  - destruct (decide (currentColor s ∈ colors)) as [Hin | Hout].
    + apply list_elem_of_lookup in Hin as [i Hi].
      apply list_elem_of_lookup. exists ((i + 1) mod 6). now apply Hstep.
    + rewrite (cycleColor_outside s Hout). now left.
  - intros Hin. apply list_elem_of_lookup in Hin as [i Hi].
    destruct s as [r color sel ms ns ex]. cbn [currentColor] in Hi.
    destruct i as [| [| [| [| [| [| i]]]]]]; cbn [colors lookup list_lookup] in Hi;
      try discriminate; injection Hi as <-; reflexivity.
Qed.

(** ** The zoom buttons *)

(** From the initial 32, whatever the presses, the font size stays an even
    number between 10 and 50. A press in one direction is undone by a
    press in the other unless the first ran into a bound. *)
Theorem zoom_bounds (presses : list Zoom) (fontSize : Z) :
  ((10 <= fold_left zoom presses 32%Z <= 50)%Z /\
   Z.even (fold_left zoom presses 32%Z) = true) /\
  ((10 <= fontSize <= 48)%Z -> zoomOut (zoomIn fontSize) = fontSize) /\
  ((12 <= fontSize <= 50)%Z -> zoomIn (zoomOut fontSize) = fontSize) /\
  zoomIn 50 = 50%Z /\ zoomOut 10 = 10%Z.
Proof.
  split; [| unfold zoomIn, zoomOut; repeat split; lia].
  assert (forall fs, (10 <= fs <= 50)%Z /\ Z.even fs = true ->
                     (10 <= fold_left zoom presses fs <= 50)%Z /\
                     Z.even (fold_left zoom presses fs) = true) as Hinv.
  { induction presses as [| z presses IH]; intros fs Hfs; [exact Hfs |].
    cbn [fold_left]. apply IH. destruct Hfs as [Hrange Heven].
    apply Z.even_spec in Heven as [k ->].
    destruct z; unfold zoom, zoomIn, zoomOut.
    - split; [lia |]. apply Z.even_spec.
      destruct (Z_le_gt_dec 50 (2 * k + 2)).
      + exists 25%Z. lia.
      + exists (k + 1)%Z. lia.
    - split; [lia |]. apply Z.even_spec.
      destruct (Z_le_gt_dec (2 * k - 2) 10).
      + exists 5%Z. lia.
      + exists (k - 1)%Z. lia. }
  apply Hinv. split; [lia | reflexivity].
Qed.

(** ** Walking through the search results *)

Lemma rem_step (a n : Z) :
  (0 <= a < 2 * n)%Z ->
  Z.rem a n = if (a <? n)%Z then a else (a - n)%Z.
Proof.
  intros Ha. rewrite Z.rem_mod_nonneg by lia.
  destruct (a <? n)%Z eqn:Hlt.
  - apply Z.ltb_lt in Hlt. apply Z.mod_small. lia.
  - apply Z.ltb_ge in Hlt.
    replace a with (a - n + 1 * n)%Z at 1 by lia.
    rewrite Z_mod_plus_full. apply Z.mod_small. lia.
Qed.

Lemma goTo_in_range (index : Z) (st : Search) :
  (0 <= index < Z.of_nat (length (searchResults st)))%Z ->
  exists result,
    searchResults st !! Z.to_nat index = Some result /\
    goTo index st
    = mkSearch (searchResults st) index (prevResults st)
               (Some (SearchResult.cfi result)).
Proof.
  intros Hrange. unfold goTo, at_index.
  assert ((index <? 0)%Z = false) as -> by now apply Z.ltb_ge.
  destruct (lookup_lt_is_Some_2 (searchResults st) (Z.to_nat index)) as [result Hresult];
    [lia |].
  exists result. now rewrite Hresult.
Qed.

(** With the counter on one of the results, "next" and "previous" keep it
    on one of the results and show the reader that result; "next" goes from
    the last result to the first and "previous" from the first to the last;
    each undoes the other. *)
Theorem search_navigation (st : Search) :
  (0 <= currentResultIndex st < Z.of_nat (length (searchResults st)))%Z ->
  let len := Z.of_nat (length (searchResults st)) in
  let next := goToNextResult st in
  let previous := goToPreviousResult st in
  (currentResultIndex next
   = if (currentResultIndex st + 1 <? len)%Z then (currentResultIndex st + 1)%Z else 0%Z) /\
  (currentResultIndex previous
   = if (0 <? currentResultIndex st)%Z then (currentResultIndex st - 1)%Z
     else (len - 1)%Z) /\
  (exists result,
     searchResults st !! Z.to_nat (currentResultIndex next) = Some result /\
     location next = Some (SearchResult.cfi result)) /\
  (exists result,
     searchResults st !! Z.to_nat (currentResultIndex previous) = Some result /\
     location previous = Some (SearchResult.cfi result)) /\
  currentResultIndex (goToPreviousResult next) = currentResultIndex st /\
  currentResultIndex (goToNextResult previous) = currentResultIndex st.
Proof.
  intros Hrange len next previous.
  assert (forall st0,
            searchResults st0 = searchResults st ->
            (0 <= currentResultIndex st0 < len)%Z ->
            let i := currentResultIndex st0 in
            let up := if (i + 1 <? len)%Z then (i + 1)%Z else 0%Z in
            let down := if (0 <? i)%Z then (i - 1)%Z else (len - 1)%Z in
            (0 <= up < len)%Z /\ (0 <= down < len)%Z /\
            goToNextResult st0 = goTo up st0 /\ goToPreviousResult st0 = goTo down st0)
    as Hmoves.
  { intros st0 Hsame Hi i up down. subst i up down.
    unfold goToNextResult, goToPreviousResult. rewrite Hsame. fold len.
    destruct (searchResults st) as [| r rs] eqn:Hresults; [cbn in len; lia |].
    rewrite !rem_step by lia.
    destruct (currentResultIndex st0 + 1 <? len)%Z eqn:Hup,
             (0 <? currentResultIndex st0)%Z eqn:Hdown,
             (currentResultIndex st0 - 1 + len <? len)%Z eqn:Hdown';
      try apply Z.ltb_lt in Hup; try apply Z.ltb_ge in Hup;
      try apply Z.ltb_lt in Hdown; try apply Z.ltb_ge in Hdown;
      try apply Z.ltb_lt in Hdown'; try apply Z.ltb_ge in Hdown';
      try lia;
      (split; [lia |]); (split; [lia |]); split; f_equal; lia. }
  destruct (Hmoves st eq_refl Hrange) as (Hup & Hdown & Hnext & Hprevious).
  fold next in Hnext. fold previous in Hprevious.
  destruct (goTo_in_range _ st Hup) as (rn & Hrn & Hgn).
  destruct (goTo_in_range _ st Hdown) as (rp & Hrp & Hgp).
  rewrite Hgn in Hnext. rewrite Hgp in Hprevious.
  assert (forall st0 i, searchResults st0 = searchResults st ->
                        currentResultIndex (goTo i st0) = i) as Hindex.
  { intros st0 i _. unfold goTo. now destruct (at_index _ _). }
  split; [now rewrite Hnext |]. split; [now rewrite Hprevious |].
  split; [exists rn; now rewrite Hnext |]. split; [exists rp; now rewrite Hprevious |].
  split.
  - destruct (Hmoves next) as (_ & _ & _ & ->);
      [now rewrite Hnext | rewrite Hnext; exact Hup |].
    rewrite Hindex by now rewrite Hnext. rewrite Hnext. cbn [currentResultIndex].
    destruct (currentResultIndex st + 1 <? len)%Z eqn:E;
      [apply Z.ltb_lt in E | apply Z.ltb_ge in E].
    + assert ((0 <? currentResultIndex st + 1)%Z = true) as -> by (apply Z.ltb_lt; lia).
      lia.
    + cbn. lia.
  - destruct (Hmoves previous) as (_ & _ & -> & _);
      [now rewrite Hprevious | rewrite Hprevious; exact Hdown |].
    rewrite Hindex by now rewrite Hprevious. rewrite Hprevious. cbn [currentResultIndex].
    destruct (0 <? currentResultIndex st)%Z eqn:E;
      [apply Z.ltb_lt in E | apply Z.ltb_ge in E].
    + assert ((currentResultIndex st - 1 + 1 <? len)%Z = true) as ->
        by (apply Z.ltb_lt; lia).
      lia.
    + assert ((len - 1 + 1 <? len)%Z = false) as -> by (apply Z.ltb_ge; lia).
      lia.
Qed.

(** Three results, the counter on the last. *)
Lemma search_navigation_witness :
  let st :=
    mkSearch [SearchResult.mk "cfi@0.1" "dark"; SearchResult.mk "cfi@0.5" "morning";
              SearchResult.mk "cfi@0.6" "rain"] 2 [] None in
  currentResultIndex (goToNextResult st) = 0%Z /\
  currentResultIndex (goToPreviousResult (goToNextResult st)) = 2%Z.
Proof.
  intros st.
  pose proof (search_navigation st) as H.
  destruct H as (Hnext & _ & _ & _ & Hback & _); [cbn; lia |].
  split; [exact Hnext | exact Hback].
Defined.

(** ** Expanding and collapsing a mark *)

(** The arrow of a mark flips whether that mark is expanded and nothing
    about the others; pressed twice it leaves the state as it was. *)
Theorem toggleMarkExpansion_twice (markId : string) (s : App) :
  toggleMarkExpansion markId (toggleMarkExpansion markId s) = s /\
  (markId ∈ expandedMarks (toggleMarkExpansion markId s) <-> markId ∉ expandedMarks s) /\
  (forall other, other <> markId ->
     (other ∈ expandedMarks (toggleMarkExpansion markId s) <-> other ∈ expandedMarks s)).
Proof.
  destruct s as [r color sel ms ns expanded].
  unfold toggleMarkExpansion, set_expandedMarks.
  cbn [rendition currentColor currentSelection marks notes expandedMarks].
  destruct (decide (markId ∈ expanded)) as [Hin | Hout].
  - rewrite decide_False
      by (rewrite elem_of_difference, elem_of_singleton; intros [_ Hne]; now apply Hne).
    split; [| split].
    + f_equal. apply set_eq. intros x.
      rewrite elem_of_union, elem_of_difference, elem_of_singleton.
      destruct (decide (x = markId)) as [-> | Hne]; intuition auto.
    + rewrite elem_of_difference, elem_of_singleton. intuition auto.
    + intros other Hne. rewrite elem_of_difference, elem_of_singleton. intuition auto.
  - rewrite decide_True
      by (rewrite elem_of_union, elem_of_singleton; now right).
    split; [| split].
    + f_equal. apply set_eq. intros x.
      rewrite elem_of_difference, elem_of_union, elem_of_singleton.
      destruct (decide (x = markId)) as [-> | Hne]; intuition auto.
    + rewrite elem_of_union, elem_of_singleton. intuition auto.
    + intros other Hne. rewrite elem_of_union, elem_of_singleton. intuition auto.
Qed.

(** * Further properties of the deletion of a mark *)

Lemma nearest_preceding_filter (P : Mark.t -> Prop) `{forall m, Decision (P m)}
    (r : Rendition) (p : Q) (l : list Mark.t) (i : nat) (m : Mark.t) (q : Q) :
  nearest_preceding r p l i m q -> P m ->
  nearest_preceding r p (filter P l) (length (filter P (take i l))) m q.
Proof.
  intros Hbest HP. pose proof Hbest as (Hi & Hq & Hle & Hrest).
  assert (filter P l = filter P (take i l) ++ m :: filter P (drop (S i) l)) as Hsplit.
  { rewrite <- (take_drop_middle l i m Hi) at 1.
    now rewrite filter_app, filter_cons_True. }
  repeat split; try assumption.
  - rewrite Hsplit. now apply list_lookup_middle.
  - apply (nearest_preceding_max r p l i m q m' q' Hbest); try assumption.
    assert (m' ∈ filter P l) as Hin by (apply list_elem_of_lookup; now exists j).
    now apply list_elem_of_filter in Hin as [_ Hin].
  - intros Hlt. rewrite Hsplit, lookup_app_l in H0 by exact Hlt.
    assert (m' ∈ filter P (take i l)) as Hin by (apply list_elem_of_lookup; now exists j).
    apply list_elem_of_filter in Hin as [_ Hin].
    apply elem_of_take in Hin as (k & Hk & Hki).
    now destruct (Hrest k m' q' Hk H1 H2) as [_ Hstrict]; apply Hstrict.
Qed.

Lemma nearest_preceding_unique (r : Rendition) (p : Q) (l : list Mark.t)
    (i i' : nat) (m m' : Mark.t) (q q' : Q) :
  nearest_preceding r p l i m q -> nearest_preceding r p l i' m' q' -> m = m'.
Proof.
  intros (Hi & Hq & Hle & Hrest) (Hi' & Hq' & Hle' & Hrest').
  destruct (Hrest i' m' q' Hi' Hq' Hle') as [Hmax Hbefore].
  destruct (Hrest' i m q Hi Hq Hle) as [Hmax' Hbefore'].
  destruct (lt_eq_lt_dec i i') as [[Hlt | Heq] | Hgt].
  - specialize (Hbefore' Hlt). lra.
  - subst i'. congruence.
  - specialize (Hbefore Hgt). lra.
Qed.

(** A lookup that returns a mark that stays returns the same mark once
    other marks are taken away; a lookup that returns nothing still returns
    nothing. *)
Lemma findParentMark_filter (P : Mark.t -> Prop) `{forall m, Decision (P m)}
    (rendition : option Rendition) (l : list Mark.t) (cfi : string) :
  match findParentMark rendition l cfi with
  | Some m => P m -> findParentMark rendition (filter P l) cfi = Some m
  | None => findParentMark rendition (filter P l) cfi = None
  end.
Proof.
  pose proof (findParentMark_spec rendition l cfi) as Hl.
  pose proof (findParentMark_spec rendition (filter P l) cfi) as Hf.
  destruct (findParentMark rendition l cfi) as [m |].
  - intros HP. destruct Hl as (r & p & i & q & -> & Hp & Hbest).
    pose proof (nearest_preceding_filter P r p l i m q Hbest HP) as Hbest'.
    destruct (findParentMark (Some r) (filter P l) cfi) as [m' |].
    + destruct Hf as (r' & p' & i' & q' & [= <-] & Hp' & Hbest'').
      rewrite Hp in Hp'. injection Hp' as <-.
      f_equal. symmetry. eapply nearest_preceding_unique; eassumption.
    + exfalso. destruct Hf as [Hnone | (r' & p' & [= <-] & Hp' & Hnone)]; [congruence |].
      rewrite Hp in Hp'. injection Hp' as <-.
      destruct Hbest' as (Hi' & Hq & Hle & _).
      apply (Hnone m q); try assumption. apply list_elem_of_lookup. eauto.
  - destruct Hl as [Hunres | (r & p & -> & Hp & Hnone)].
    + now apply findParentMark_unresolved.
    + apply (findParentMark_no_preceding r _ cfi p Hp).
      intros m q Hin. apply list_elem_of_filter in Hin as [_ Hin]. now apply Hnone.
Qed.

(** The deletion of a mark files its notes as a lookup among the marks
    that remain would, whenever no lookup among all the marks hands back a
    mark of the deleted id: then the deleted mark was the nearest to none
    of its notes, and no parent dangles afterwards that did not before. *)
Theorem deleteMark_right_unless_stale (markId : string) (s : App) :
  (forall n m, n ∈ notes s -> Note.markId n = Some markId ->
     findParentMark (rendition s) (marks s) (Note.cfiRange n) = Some m ->
     Mark.id m <> markId) ->
  let r := deleteMarkWithReassignment markId s in
  notes (state r)
  = (fun note =>
       if decide (Note.markId note = Some markId) then
         Note.with_markId
           (Mark.id <$> findParentMark (rendition s) (marks (state r)) (Note.cfiRange note))
           note
       else note) <$> notes s /\
  (no_dangling s -> no_dangling (state r)).
Proof.
  intros Hother r. subst r.
  cbn [deleteMarkWithReassignment state notes marks set_notes set_marks]. split.
  - apply list_fmap_ext. intros i n Hi.
    destruct (decide (Note.markId n = Some markId)) as [Hid | _]; [| reflexivity].
    assert (n ∈ notes s) as Hin by (apply list_elem_of_lookup; now exists i).
    pose proof (findParentMark_filter (fun mark => Mark.id mark <> markId)
                  (rendition s) (marks s) (Note.cfiRange n)) as Hfilter.
    destruct (findParentMark (rendition s) (marks s) (Note.cfiRange n)) as [m |] eqn:Hparent.
    + rewrite Hfilter by now apply (Hother n m). reflexivity.
    + now rewrite Hfilter.
  - intros Hinv n i Hin Hid.
    apply list_elem_of_fmap in Hin as (n0 & -> & Hin0).
    destruct (decide (Note.markId n0 = Some markId)) as [Heq | Hne].
    + simpl in Hid.
      destruct (findParentMark (rendition s) (marks s) (Note.cfiRange n0))
        as [m |] eqn:Hparent; [| discriminate].
      injection Hid as <-. exists m. split; [| reflexivity].
      apply list_elem_of_filter. split; [now apply (Hother n0 m) |].
      now apply findParentMark_elem in Hparent.
    + destruct (Hinv n0 i Hin0 Hid) as (m & Hm & Hmi). exists m. split; [| exact Hmi].
      apply list_elem_of_filter. split; [congruence | exact Hm].
Qed.

(** M1 deleted while N, at 0.6, is still filed under it and M2, at 0.5, is
    the nearer mark: N moves to M2. *)
Lemma deleteMark_right_unless_stale_witness :
  let s := set_notes [Note.with_markId (Some "mark-1") Example.N] Example.reading in
  Note.markId <$> notes (state (deleteMarkWithReassignment "mark-1" s))
  = [Some "mark-2"].
Proof.
  intros s.
  pose proof (deleteMark_right_unless_stale "mark-1" s) as H.
  destruct H as [Hnotes _].
  - intros n m Hin _ Hparent. apply list_elem_of_singleton in Hin. subst n.
    assert (findParentMark (rendition s) (marks s)
              (Note.cfiRange (Note.with_markId (Some "mark-1") Example.N))
            = Some Example.M2) as E by (vm_compute; reflexivity).
    rewrite E in Hparent. injection Hparent as <-. discriminate.
  - rewrite Hnotes. vm_compute. reflexivity.
Defined.

(** A mark added and deleted again leaves the marks and the notes as they
    were, provided its id is new: no mark and no note carries it. *)
Theorem addMark_then_delete (c : Clock) (s : App) (markData : Mark.t) :
  sent (addMark c s) = [SaveMark markData] ->
  (forall m, m ∈ marks s -> Mark.id m <> Mark.id markData) ->
  (forall n, n ∈ notes s -> Note.markId n <> Some (Mark.id markData)) ->
  let r := deleteMarkWithReassignment (Mark.id markData) (state (addMark c s)) in
  marks (state r) = marks s /\ notes (state r) = notes s /\
  sent r = [UpdateMarks (marks s); UpdateNotes (notes s)].
Proof.
  intros Hsent Hfresh Hnotes r.
  assert (marks (state (addMark c s)) = marks s ++ [markData]
          /\ notes (state (addMark c s)) = notes s) as [Hm Hn].
  { revert Hsent. unfold addMark.
    destruct (currentSelection s); [| discriminate].
    destruct (rendition s); [| discriminate].
    cbn [sent state marks notes set_marks set_currentSelection].
    now intros [= <-]. }
  assert (marks (state r) = marks s) as Hmarks.
  { subst r. cbn [deleteMarkWithReassignment state marks set_notes set_marks].
    rewrite Hm, filter_app, filter_cons_False, filter_nil, app_nil_r
      by (intros Hne; now apply Hne).
    now apply filter_all. }
  assert (notes (state r) = notes s) as Hnotes'.
  { subst r. cbn [deleteMarkWithReassignment state notes set_notes set_marks].
    rewrite Hn. rewrite <- (list_fmap_id (notes s)) at 2.
    apply list_fmap_ext. intros i n Hi.
    destruct (decide (Note.markId n = Some (Mark.id markData))) as [Heq | _];
      [| reflexivity].
    exfalso. apply (Hnotes n); [| exact Heq]. apply list_elem_of_lookup. now exists i. }
  split; [exact Hmarks |]. split; [exact Hnotes' |].
  subst r. cbn [deleteMarkWithReassignment sent].
  cbn [deleteMarkWithReassignment state marks notes set_notes set_marks] in Hmarks, Hnotes'.
  now rewrite Hmarks, Hnotes'.
Qed.

(** A mark added at 0.6 in the session of M1, M2 and N, and deleted. *)
Lemma addMark_then_delete_witness :
  let markData :=
    Mark.mk "mark-7" "cfi@0.6" "and the rain fell" "Episode 3" "" 7
            "2024-05-01T10:00:00.007Z" in
  marks (state (deleteMarkWithReassignment (Mark.id markData)
                  (state (addMark Example.clock Example.selecting))))
  = marks Example.selecting.
Proof.
  intros markData.
  apply (addMark_then_delete Example.clock Example.selecting markData).
  - vm_compute. reflexivity.
  - intros m Hm. simpl in Hm.
    apply elem_of_cons in Hm as [-> | Hm]; [discriminate |].
    apply list_elem_of_singleton in Hm. subst m. discriminate.
  - intros n Hn. simpl in Hn. apply list_elem_of_singleton in Hn. subst n. discriminate.
Defined.

(** ** Handlers without a selection or without a book *)

(** Without a selection, or before the book is rendered, the three
    creating handlers do nothing: no alert, nothing sent, the state as it
    was. *)
Theorem create_needs_selection (c : Clock) (formatType : string) (s : App) :
  currentSelection s = None \/ rendition s = None ->
  addMark c s = mkResult s [] Ignored /\
  addHighlight c s = mkResult s [] Ignored /\
  applyFormatting formatType c s = mkResult s [] Ignored.
Proof.
  intros Hguard. unfold addMark, addHighlight, applyFormatting, createNote.
  destruct Hguard as [-> | ->]; [now repeat split |].
  now destruct (currentSelection s).
Qed.

(** The session of M1, M2 and N with nothing selected. *)
Lemma create_needs_selection_witness :
  addMark Example.clock Example.reading = mkResult Example.reading [] Ignored.
Proof.
  apply (create_needs_selection Example.clock "underline" Example.reading).
  now left.
Defined.
